(** * Pet age calculator: the lookup and conversion core of [src/lib/age-utils.ts]

    The development embeds the three exported functions of
    [src/lib/age-utils.ts] ([calculateHumanAge], [getUniqueSpecies],
    [getBreedsBySpecies]) together with the record type of
    [src/lib/types.ts], and proves the properties the specification
    states about them.

    Modelling choices.
    - A TypeScript [string] is a [string]; [===] on strings is [String.eqb].
    - A TypeScript [number] is an IEEE 754 binary64 value, the primitive
      [float]: [*], [+], [-] and [<=] are the rounding operations and the
      comparison of doubles, with their infinities, signed zeros and NaN
      (the one NaN of the model stands for all NaN payloads, which
      JavaScript does not tell apart).  What the proofs use of them is
      their specification over [spec_float].
    - [number | null] is [option float]; [undefined] out of
      [Array.prototype.find] is [None].
    - An array is a [list]; the array methods used by the source ([find],
      [filter], [map]) and [Set] are defined below by their iteration
      order. *)

From Stdlib Require Import ZArith Floats Reals Lra.
From stdpp Require Import base list strings.

Local Open Scope float_scope.

(** ** [src/lib/types.ts] *)

Record PetAgeData : Type := mkPetAgeData {
  species : string;
  breed : string;
  firstPhaseYears : float;
  firstPhaseValue : float;
  laterPerYear : float
}.

(** ** The JavaScript built-ins the source calls *)

Module JS.

(** [Array.prototype.find]: the first element, from index 0 upwards, on
    which the callback is truthy; [undefined] when there is none. *)
Fixpoint Array_find {A : Type} (p : A -> bool) (a : list A) : option A :=
  match a with
  | [] => None
  | x :: rest => if p x then Some x else Array_find p rest
  end.

(** [Array.prototype.filter]: the elements on which the callback is
    truthy, in index order, in a new array. *)
Fixpoint Array_filter {A : Type} (p : A -> bool) (a : list A) : list A :=
  match a with
  | [] => []
  | x :: rest => if p x then x :: Array_filter p rest else Array_filter p rest
  end.

(** [Array.prototype.map]: the callback's results, in index order, in a
    new array. *)
Fixpoint Array_map {A B : Type} (f : A -> B) (a : list A) : list B :=
  match a with
  | [] => []
  | x :: rest => f x :: Array_map f rest
  end.

(** A [Set<string>] is kept as the [list string] of its members in
    insertion order, which is the order its iterator (and so the spread
    [[...set]]) yields them in. *)
Definition Set_has (s : list string) (v : string) : bool :=
  existsb (String.eqb v) s.

(** [Set.prototype.add]: a value already present leaves the set as it
    is, a new one is appended. *)
Definition Set_add (s : list string) (v : string) : list string :=
  if Set_has s v then s else s ++ [v].

(** [new Set(iterable)]: an empty set to which the values of the
    iterable are added one by one. *)
Definition Set_new (iterable : list string) : list string :=
  fold_left Set_add iterable [].

(** [[...set]]: the members in insertion order, in a new array. *)
Definition spread (s : list string) : list string := s.

End JS.

(** ** [src/lib/age-utils.ts] *)

(** The callback of line 10:
    [(item) => item.species === species && item.breed === breed]. *)
Definition is_entry (sp br : string) (item : PetAgeData) : bool :=
  String.eqb (species item) sp && String.eqb (breed item) br.

(** Line 18, the formula of the first phase. *)
Definition firstPhaseAge (entry : PetAgeData) (petAge : float) : float :=
  let firstPhaseValue := firstPhaseValue entry in
  petAge * firstPhaseValue.

(** Line 20, the formula after the first phase. *)
Definition laterPhaseAge (entry : PetAgeData) (petAge : float) : float :=
  let firstPhaseYears := firstPhaseYears entry in
  let firstPhaseValue := firstPhaseValue entry in
  let laterPerYear := laterPerYear entry in
  firstPhaseYears * firstPhaseValue + (petAge - firstPhaseYears) * laterPerYear.

(** Lines 14-21, for the entry that was found. *)
Definition humanAgeOf (entry : PetAgeData) (petAge : float) : float :=
  if petAge <=? firstPhaseYears entry then
    firstPhaseAge entry petAge
  else
    laterPhaseAge entry petAge.

Definition calculateHumanAge
    (sp br : string) (petAge : float) (data : list PetAgeData) : option float :=
  match JS.Array_find (is_entry sp br) data with
  | None => None
  | Some entry => Some (humanAgeOf entry petAge)
  end.

Definition getUniqueSpecies (data : list PetAgeData) : list string :=
  JS.spread (JS.Set_new (JS.Array_map species data)).

Definition getBreedsBySpecies (sp : string) (data : list PetAgeData) : list string :=
  JS.Array_map breed (JS.Array_filter (fun item => String.eqb (species item) sp) data).

(** ** The same code over an explicit store

    Arrays and sets are objects on a heap and the functions receive a
    reference to the dataset.  This is the level at which "the call
    mutates nothing it was given" can be said: [find], [filter] and [map]
    read their receiver, [filter], [map], [new Set] and the spread
    allocate, and [Set.prototype.add] writes to the set it is called on. *)

Module Store.

Inductive object : Type :=
| DataArray (items : list PetAgeData)
| StrArray (items : list string)
| SetObject (members : list string).

Abbreviation loc := nat (only parsing).
Abbreviation heap := (list object) (only parsing).

(** A computation runs on a heap and yields a value and the heap it
    leaves, or [None] where JavaScript raises a [TypeError] (a method
    called on an object of the wrong kind). *)
Definition M (A : Type) : Type := heap -> option (A * heap).

Definition ret {A : Type} (a : A) : M A := fun h => Some (a, h).

Definition bind {A B : Type} (m : M A) (k : A -> M B) : M B :=
  fun h => match m h with
           | None => None
           | Some (a, h') => k a h'
           end.

Declare Scope store_scope.
Delimit Scope store_scope with store.
Notation "'let!' x ':=' m 'in' k" := (bind m (fun x => k))
  (at level 10, x name, m at level 100, k at level 200) : store_scope.
Local Open Scope store_scope.

Definition alloc (o : object) : M loc :=
  fun h => Some (length h, h ++ [o]).

Definition write (l : loc) (o : object) : M unit :=
  fun h => match h !! l with
           | None => None
           | Some _ => Some (tt, <[l := o]> h)
           end.

Definition read_data (l : loc) : M (list PetAgeData) :=
  fun h => match h !! l with
           | Some (DataArray items) => Some (items, h)
           | _ => None
           end.

Definition read_strings (l : loc) : M (list string) :=
  fun h => match h !! l with
           | Some (StrArray items) => Some (items, h)
           | _ => None
           end.

Definition read_set (l : loc) : M (list string) :=
  fun h => match h !! l with
           | Some (SetObject members) => Some (members, h)
           | _ => None
           end.

Fixpoint for_each {A : Type} (a : list A) (body : A -> M unit) : M unit :=
  match a with
  | [] => ret tt
  | x :: rest => let! _ := body x in for_each rest body
  end.

Definition Array_find (a : loc) (p : PetAgeData -> bool) : M (option PetAgeData) :=
  let! items := read_data a in ret (JS.Array_find p items).

Definition Array_filter (a : loc) (p : PetAgeData -> bool) : M loc :=
  let! items := read_data a in alloc (DataArray (JS.Array_filter p items)).

Definition Array_map (a : loc) (f : PetAgeData -> string) : M loc :=
  let! items := read_data a in alloc (StrArray (JS.Array_map f items)).

Definition Set_add (s : loc) (v : string) : M unit :=
  let! members := read_set s in write s (SetObject (JS.Set_add members v)).

Definition Set_new (iterable : loc) : M loc :=
  let! items := read_strings iterable in
  let! s := alloc (SetObject []) in
  let! _ := for_each items (Set_add s) in
  ret s.

Definition spread (s : loc) : M loc :=
  let! members := read_set s in alloc (StrArray (JS.spread members)).

Definition calculateHumanAge
    (sp br : string) (petAge : float) (data : loc) : M (option float) :=
  let! entry := Array_find data (is_entry sp br) in
  match entry with
  | None => ret None
  | Some entry => ret (Some (humanAgeOf entry petAge))
  end.

Definition getUniqueSpecies (data : loc) : M loc :=
  let! mapped := Array_map data species in
  let! s := Set_new mapped in
  spread s.

Definition getBreedsBySpecies (sp : string) (data : loc) : M loc :=
  let! filtered := Array_filter data (fun item => String.eqb (species item) sp) in
  Array_map filtered breed.

(** Two calls in a row, on the heap the first one leaves. *)
Definition twice {A : Type} (call : M A) : M (A * A) :=
  let! first := call in
  let! second := call in
  ret (first, second).

(** What a caller holding the returned reference sees. *)
Definition strings_at (h : heap) (l : loc) : option (list string) :=
  match h !! l with
  | Some (StrArray items) => Some items
  | _ => None
  end.

End Store.

(** ** Vocabulary of the statements *)

(** Index of the first occurrence of [s] in [l]. *)
Fixpoint first_index (s : string) (l : list string) : option nat :=
  match l with
  | [] => None
  | x :: rest => if String.eqb x s then Some 0%nat else option_map S (first_index s rest)
  end.

(** The record matches the query pair. *)
Definition matches (sp br : string) (item : PetAgeData) : Prop :=
  species item = sp /\ breed item = br.

(** [item] is the first record of [data] with its own (species, breed)
    pair. *)
Definition first_of_its_key (item : PetAgeData) (data : list PetAgeData) : Prop :=
  exists before after,
    data = before ++ item :: after
    /\ Forall (fun r => ~ matches (species item) (breed item) r) before.

(** The (species, breed) pair of a record, the key of the dataset. *)
Definition key (item : PetAgeData) : string * string :=
  (species item, breed item).

(** No two records of the dataset share a (species, breed) pair. *)
Definition unique_keys (data : list PetAgeData) : Prop :=
  NoDup (List.map key data).


(** [calculateHumanAge] queried with the pair of [item] at the phase
    boundary of [item] gives [firstPhaseYears * firstPhaseValue] of [item]. *)
Definition boundary_value (item : PetAgeData) (data : list PetAgeData) : Prop :=
  exists h,
    calculateHumanAge (species item) (breed item) (firstPhaseYears item) data = Some h
    /\ h = firstPhaseYears item * firstPhaseValue item.

(** All three rate fields are strictly positive. *)
Definition positive_fields (item : PetAgeData) : Prop :=
  (0 <? firstPhaseYears item) = true
  /\ (0 <? firstPhaseValue item) = true
  /\ (0 <? laterPerYear item) = true.

(** All three rate fields are finite: neither an infinity nor NaN. *)
Definition finite_fields (item : PetAgeData) : Prop :=
  is_finite (firstPhaseYears item) = true
  /\ is_finite (firstPhaseValue item) = true
  /\ is_finite (laterPerYear item) = true.

(** Number of records of a species. *)
Fixpoint count_species (sp : string) (data : list PetAgeData) : nat :=
  match data with
  | [] => 0%nat
  | item :: rest =>
      if decide (species item = sp) then S (count_species sp rest)
      else count_species sp rest
  end.

(** Sample records. *)
Definition labrador : PetAgeData :=
  mkPetAgeData "Dog" "Labrador" 2 10.5 4.

Definition labrador_again : PetAgeData :=
  mkPetAgeData "Dog" "Labrador" 3 5 1.

Definition siamese : PetAgeData :=
  mkPetAgeData "Cat" "Siamese" 1 15 4.

Definition poodle : PetAgeData :=
  mkPetAgeData "Dog" "Poodle" 2 12 5.



(** ** The caller: [PetAgeCalculator] (the form component)

    The two effects of the component and the condition of its result
    panel, as functions of the state they read and write.  The form
    values have the type [PetAgeFormValues] of [src/lib/types.ts].  What
    [react-hook-form] reports as [formState.isValid] is an input of the
    effect that reads it; scheduling of renders is not modelled. *)

Module Form.

Record PetAgeFormValues : Type := mk {
  species : string;
  breed : string;
  petAge : float
}.

End Form.

Module PetAgeCalculator.

(** Truthiness of a string: every string but the empty one. *)
Definition truthy_string (s : string) : bool :=
  match s with
  | EmptyString => false
  | String _ _ => true
  end.

(** Truthiness of a number: every number but the two zeros and NaN. *)
Definition truthy_number (n : float) : bool := negb ((n =? 0) || is_nan n).

(** [formSchema], on values of their declared types: both strings have
    at least one character and the age is positive. *)
Definition formSchema (v : Form.PetAgeFormValues) : bool :=
  (1 <=? String.length (Form.species v))%nat
  && (1 <=? String.length (Form.breed v))%nat
  && (0 <? Form.petAge v).

(** The form values and the two [useState] cells. *)
Record state : Type := mkState {
  values : Form.PetAgeFormValues;
  availableBreeds : list string;
  humanAge : option float
}.

(** [field.onChange] of the species and of the breed select. *)
Definition selectSpecies (s : string) (st : state) : state :=
  mkState (Form.mk s (Form.breed (values st)) (Form.petAge (values st)))
          (availableBreeds st) (humanAge st).

Definition selectBreed (b : string) (st : state) : state :=
  mkState (Form.mk (Form.species (values st)) b (Form.petAge (values st)))
          (availableBreeds st) (humanAge st).

(** The first effect: the breeds of the selected species are made
    available and the breed selection is reset; without a species no
    breed is available. *)
Definition breedsEffect (data : list PetAgeData) (st : state) : state :=
  let selectedSpecies := Form.species (values st) in
  if truthy_string selectedSpecies then
    let breeds := getBreedsBySpecies selectedSpecies data in
    mkState (Form.mk selectedSpecies "" (Form.petAge (values st)))
            breeds (humanAge st)
  else
    mkState (values st) [] (humanAge st).

(** The second effect: the human age is computed when the form is valid
    and all three values are truthy, and is [null] otherwise. *)
Definition humanAgeEffect (data : list PetAgeData) (isValid : bool) (st : state) : state :=
  let watchedValues := values st in
  if isValid
     && truthy_string (Form.species watchedValues)
     && truthy_string (Form.breed watchedValues)
     && truthy_number (Form.petAge watchedValues)
  then
    let age := calculateHumanAge (Form.species watchedValues) (Form.breed watchedValues)
                                 (Form.petAge watchedValues) data in
    mkState (values st) (availableBreeds st) age
  else
    mkState (values st) (availableBreeds st) None.

(** The result panel shows a number when
    [formState.isValid && humanAge !== null]. *)
Definition showsResult (isValid : bool) (st : state) : bool :=
  isValid && match humanAge st with Some _ => true | None => false end.

End PetAgeCalculator.

(** ** Vocabulary of the proofs about doubles

    A double is read through its specification value [Prim2SF x], a
    [spec_float]: a signed zero, a signed infinity, NaN, or a sign, a
    mantissa and an exponent. *)

(** The sign of a number that is not NaN. *)
Definition SF_sign_is (s : bool) (X : spec_float) : Prop :=
  match X with
  | S754_zero s' | S754_infinity s' | S754_finite s' _ _ => s' = s
  | S754_nan => False
  end.

(** The power of two of exponent [e], as a real. *)
Definition bpow (e : Z) : R := powerRZ 2 e.

(** [q] is the integer nearest to [x], the even one of the two when [x]
    lies half-way. *)
Definition is_rne (x : R) (q : Z) : Prop :=
  (x - 1 / 2 < IZR q < x + 1 / 2)%R
  \/ ((IZR q = x - 1 / 2 \/ IZR q = x + 1 / 2)%R /\ Z.even q = true).

(** After [k] shifts of [m]: the quotient, and where the remainder lies
    with respect to the half. *)
Definition shr_inv (m k : Z) (mrs : shr_record) : Prop :=
  (0 <= shr_m mrs)%Z
  /\ exists rem,
       (m = shr_m mrs * 2 ^ k + rem)%Z /\ (0 <= rem < 2 ^ k)%Z
       /\ match shr_r mrs, shr_s mrs with
          | false, false => rem = 0%Z
          | false, true => (0 < 2 * rem < 2 ^ k)%Z
          | true, false => (2 * rem = 2 ^ k)%Z
          | true, true => (2 ^ k < 2 * rem)%Z
          end.

(** What [binary_round_aux] may return for the rounded integer [q] on the
    grid of exponent [E]: a zero, the number [q * 2^E], or an infinity
    when that number is [2^1024] or more. *)
Definition out_spec (s : bool) (q E : Z) (X : spec_float) : Prop :=
  (q = 0%Z /\ X = S754_zero s)
  \/ (exists m e, X = S754_finite s m e
                  /\ (IZR (Z.pos m) * bpow e = IZR q * bpow E)%R)
  \/ (X = S754_infinity s /\ (bpow 1024 <= IZR q * bpow E)%R).

(** The real value of a finite number; zero for the others. *)
Definition SFval (X : spec_float) : R :=
  match X with
  | S754_finite false m e => (IZR (Z.pos m) * bpow e)%R
  | S754_finite true m e => (- (IZR (Z.pos m) * bpow e))%R
  | _ => 0%R
  end.

(** Zero or a positive finite number. *)
Definition NNfin (X : spec_float) : Prop :=
  match X with
  | S754_zero _ | S754_finite false _ _ => True
  | _ => False
  end.

(** Zero, a positive finite number or plus infinity. *)
Definition NN (X : spec_float) : Prop :=
  match X with
  | S754_zero _ | S754_finite false _ _ | S754_infinity false => True
  | _ => False
  end.

(** [X] is what the positive real [x] rounds to: [x] has magnitude [mag],
    is rounded to the nearest multiple [q * 2^E] of the grid of its
    magnitude, ties to even, and [X] is the double of that multiple. *)
Definition rnd_of (x : R) (X : spec_float) : Prop :=
  exists mag q,
    (bpow (mag - 1) <= x < bpow mag)%R
    /\ is_rne (x / bpow (fexp prec emax mag)) q
    /\ (0 <= q)%Z
    /\ out_spec false q (fexp prec emax mag) X.

(** The same for a non-negative real: zero rounds to a zero. *)
Definition rnd0 (x : R) (X : spec_float) : Prop :=
  (x = 0%R /\ exists s, X = S754_zero s) \/ ((0 < x)%R /\ rnd_of x X).

(** A number above the positive finite number of mantissa [my] and
    exponent [ey]: finite and larger, or plus infinity. *)
Definition above (my : positive) (ey : Z) (X : spec_float) : Prop :=
  (NNfin X /\ (SFval (S754_finite false my ey) < SFval X)%R)
  \/ X = S754_infinity false.

(** ** The scenarios of the specification, section 8 *)

Example scenario_1 : calculateHumanAge "Dog" "Labrador" 1 [labrador] = Some 10.5.
Proof. reflexivity. Qed.

Example scenario_2 : calculateHumanAge "Dog" "Labrador" 2 [labrador] = Some 21.
Proof. reflexivity. Qed.

Example scenario_3 : calculateHumanAge "Dog" "Labrador" 5 [labrador] = Some 33.
Proof. reflexivity. Qed.

Example scenario_4 : calculateHumanAge "Cat" "Siamese" 3 [labrador] = None.
Proof. reflexivity. Qed.

Example scenario_5 : getUniqueSpecies [labrador] = ["Dog"%string].
Proof. reflexivity. Qed.

Example scenario_6 :
  getBreedsBySpecies "Dog" [labrador] = ["Labrador"%string]
  /\ getBreedsBySpecies "Cat" [labrador] = [].
Proof. split; reflexivity. Qed.

(** ** The arithmetic is the one of doubles

    Products and sums round to the nearest double, overflow to Infinity
    and underflow to zero, and a product of zero and Infinity is NaN. *)

Example rounds_to_nearest :
  calculateHumanAge "Cat" "Persian" 3
    [mkPetAgeData "Cat" "Persian" 5 0x1.999999999999ap-4 1]
  = Some 0x1.3333333333334p-2.
Proof. reflexivity. Qed.

Example large_ages_collapse :
  calculateHumanAge "Cat" "Persian" 3 [mkPetAgeData "Cat" "Persian" 2 1e16 1]
  = calculateHumanAge "Cat" "Persian" 4 [mkPetAgeData "Cat" "Persian" 2 1e16 1].
Proof. reflexivity. Qed.

Example underflows_to_zero :
  calculateHumanAge "Cat" "Persian" 0x1p-1074 [mkPetAgeData "Cat" "Persian" 2 0.5 1]
  = Some 0.
Proof. reflexivity. Qed.

Example overflows_to_infinity :
  calculateHumanAge "Cat" "Persian" 0x1p1023
    [mkPetAgeData "Cat" "Persian" 0x1.8p1023 10 1]
  = Some infinity.
Proof. reflexivity. Qed.

Example zero_times_infinity :
  calculateHumanAge "Cat" "Persian" 0 [mkPetAgeData "Cat" "Persian" 2 infinity 4]
  = Some nan.
Proof. reflexivity. Qed.

(** ** The built-ins against the list library *)

Section Builtins.
Context {A B : Type}.
Implicit Types (p : A -> bool) (f : A -> B) (a : list A).

Lemma Array_filter_filter p a : JS.Array_filter p a = List.filter p a.
Proof. induction a as [|x rest IH]; simpl; [done|]. by rewrite IH. Qed.

Lemma Array_map_map f a : JS.Array_map f a = List.map f a.
Proof. induction a as [|x rest IH]; simpl; [done|]. by rewrite IH. Qed.

Lemma Array_find_None p a :
  JS.Array_find p a = None <-> Forall (fun x => p x = false) a.
Proof.
  induction a as [|x rest IH]; simpl.
  - split; [constructor | done].
  - destruct (p x) eqn:Hx.
    + split; [done|]. intros H. inversion H; congruence.
    + rewrite IH. split; [by constructor | by inversion 1].
Qed.

Lemma Array_find_first p before x after :
  p x = true -> Forall (fun y => p y = false) before ->
  JS.Array_find p (before ++ x :: after) = Some x.
Proof.
  intros Hx Hb. induction Hb as [|y before Hy _ IH]; simpl.
  - by rewrite Hx.
  - by rewrite Hy.
Qed.

Lemma Array_find_Some p a x :
  JS.Array_find p a = Some x ->
  exists before after,
    a = before ++ x :: after /\ p x = true /\ Forall (fun y => p y = false) before.
Proof.
  induction a as [|y rest IH]; simpl; [done|].
  destruct (p y) eqn:Hy.
  - intros [= ->]. by exists [], rest.
  - intros Hrest. destruct (IH Hrest) as (before & after & Heq & Hx & Hb).
    exists (y :: before), after. subst rest. repeat split; [done|by constructor].
Qed.

End Builtins.

Lemma is_entry_true sp br item : is_entry sp br item = true <-> matches sp br item.
Proof.
  unfold is_entry, matches.
  rewrite andb_true_iff, !String.eqb_eq. done.
Qed.

Lemma is_entry_false sp br item : is_entry sp br item = false <-> ~ matches sp br item.
Proof.
  rewrite <- is_entry_true. destruct (is_entry sp br item); split; congruence.
Qed.

Lemma no_entry_Forall sp br (data : list PetAgeData) :
  Forall (fun r => is_entry sp br r = false) data
  <-> Forall (fun r => ~ matches sp br r) data.
Proof. apply Forall_iff. intros r. apply is_entry_false. Qed.

Lemma calculateHumanAge_found sp br petAge data entry :
  JS.Array_find (is_entry sp br) data = Some entry ->
  calculateHumanAge sp br petAge data = Some (humanAgeOf entry petAge).
Proof. unfold calculateHumanAge. by intros ->. Qed.

Lemma humanAgeOf_first_phase entry petAge :
  (petAge <=? firstPhaseYears entry) = true ->
  humanAgeOf entry petAge = petAge * firstPhaseValue entry.
Proof. intros H. unfold humanAgeOf. by rewrite H. Qed.

Lemma humanAgeOf_second_phase entry petAge :
  (petAge <=? firstPhaseYears entry) = false ->
  humanAgeOf entry petAge =
    firstPhaseYears entry * firstPhaseValue entry
    + (petAge - firstPhaseYears entry) * laterPerYear entry.
Proof. intros H. unfold humanAgeOf. by rewrite H. Qed.

(** ** Doubles: signs and comparisons

    The properties of the primitive operations used below, read off their
    specification over [spec_float]. *)

Lemma shr_1_nonneg mrs : (0 <= shr_m mrs)%Z -> (0 <= shr_m (shr_1 mrs))%Z.
Proof.
  destruct mrs as [m r s]. simpl. intros Hm.
  destruct m as [|[p|p|]|p]; simpl; lia.
Qed.

Lemma iter_shr_1_nonneg n : forall mrs,
  (0 <= shr_m mrs)%Z -> (0 <= shr_m (SpecFloat.iter_pos shr_1 n mrs))%Z.
Proof.
  induction n as [n IH|n IH|]; intros mrs Hm; simpl.
  - apply IH, IH. by apply shr_1_nonneg.
  - by apply IH, IH.
  - by apply shr_1_nonneg.
Qed.

Lemma shr_nonneg mrs e n : (0 <= shr_m mrs)%Z -> (0 <= shr_m (fst (shr mrs e n)))%Z.
Proof.
  intros Hm. unfold shr. destruct n; simpl; [done| |done]. by apply iter_shr_1_nonneg.
Qed.

Lemma shr_fexp_nonneg m e l :
  (0 <= m)%Z -> (0 <= shr_m (fst (shr_fexp prec emax m e l)))%Z.
Proof.
  intros Hm. unfold shr_fexp. apply shr_nonneg.
  destruct l as [|[| |]]; simpl; done.
Qed.

Lemma round_nearest_even_nonneg m l : (0 <= m)%Z -> (0 <= round_nearest_even m l)%Z.
Proof.
  intros Hm. unfold round_nearest_even.
  destruct l as [|[| |]]; [done| |done|lia]. destruct (Z.even m); lia.
Qed.

Lemma binary_round_aux_sign s m e l :
  (0 <= m)%Z -> SF_sign_is s (binary_round_aux prec emax s m e l).
Proof.
  intros Hm. unfold binary_round_aux.
  pose proof (shr_fexp_nonneg m e l Hm) as H1.
  destruct (shr_fexp prec emax m e l) as [mrs' e'] eqn:E1. simpl in H1.
  pose proof (shr_fexp_nonneg _ e' loc_Exact
                (round_nearest_even_nonneg _ (loc_of_shr_record mrs') H1)) as H2.
  destruct (shr_fexp prec emax _ e' loc_Exact) as [mrs'' e''] eqn:E2. simpl in H2.
  destruct (shr_m mrs'') as [|p|p]; simpl; [done| |lia].
  by destruct (e'' <=? emax - prec)%Z.
Qed.

Lemma SFmul_sign X Y sx sy :
  SF_sign_is sx X -> SF_sign_is sy Y ->
  SFmul prec emax X Y = S754_nan \/ SF_sign_is (xorb sx sy) (SFmul prec emax X Y).
Proof.
  destruct X as [s1|s1| |s1 m1 e1], Y as [s2|s2| |s2 m2 e2]; simpl;
    try done; intros <- <-; try (by right); try (by left).
  right. by apply binary_round_aux_sign.
Qed.

Lemma Prim2SF_zero : Prim2SF 0 = S754_zero false.
Proof. reflexivity. Qed.

Lemma leb_zero_sign x : (x <=? 0) = true ->
  (exists s, Prim2SF x = S754_zero s) \/ SF_sign_is true (Prim2SF x).
Proof.
  rewrite FloatAxioms.leb_spec, Prim2SF_zero. unfold SFleb.
  destruct (Prim2SF x) as [s|[|]| |[|] m e]; simpl; try done; eauto.
Qed.

Lemma zero_leb_sign x : (0 <=? x) = true ->
  (exists s, Prim2SF x = S754_zero s) \/ SF_sign_is false (Prim2SF x).
Proof.
  rewrite FloatAxioms.leb_spec, Prim2SF_zero. unfold SFleb.
  destruct (Prim2SF x) as [s|[|]| |[|] m e]; simpl; try done; eauto.
Qed.

(** A non-positive number is at most a non-negative one. *)
Lemma nonpos_leb_nonneg x y :
  (x <=? 0) = true -> (0 <=? y) = true -> (x <=? y) = true.
Proof.
  rewrite !FloatAxioms.leb_spec, Prim2SF_zero. unfold SFleb.
  destruct (Prim2SF x) as [s|[|]| |[|] m e], (Prim2SF y) as [s'|[|]| |[|] m' e'];
    simpl; done.
Qed.

(** The product of a non-positive and a non-negative number is not
    positive; it is at most zero unless it is NaN. *)
Lemma nonpos_mul_nonneg x v :
  (x <=? 0) = true -> (0 <=? v) = true ->
  (0 <? x * v) = false /\ (is_nan (x * v) = false -> (x * v <=? 0) = true).
Proof.
  intros Hx Hv. unfold is_nan.
  rewrite FloatAxioms.ltb_spec, FloatAxioms.leb_spec, FloatAxioms.eqb_spec, FloatAxioms.mul_spec, Prim2SF_zero. unfold SF64mul.
  assert (exists s, SF_sign_is s (Prim2SF x) /\ exists s', SF_sign_is s' (Prim2SF v)
            /\ (xorb s s' = true
                \/ (exists z, Prim2SF x = S754_zero z) \/ (exists z, Prim2SF v = S754_zero z)))
    as (s & Hs & s' & Hs' & Hcase).
  { apply leb_zero_sign in Hx as [[z Hz]|Hx]; apply zero_leb_sign in Hv as [[z' Hz']|Hv].
    - rewrite Hz, Hz'. exists z. split; [done|]. exists z'. split; [done|]. right. left. eauto.
    - rewrite Hz. exists z. split; [done|]. exists false. split; [done|]. right. left. eauto.
    - rewrite Hz'. exists true. split; [done|]. exists z'. split; [done|]. right. right. eauto.
    - exists true. split; [done|]. exists false. split; [done|]. by left. }
  destruct Hcase as [Hxor|[[z Hz]|[z Hz]]].
  - destruct (SFmul_sign _ _ _ _ Hs Hs') as [->|Hsign]; [done|].
    rewrite Hxor in Hsign.
    destruct (SFmul prec emax (Prim2SF x) (Prim2SF v)) as [?|?| |? ? ?];
      simpl in *; subst; done.
  - rewrite Hz. destruct (Prim2SF v) as [?|?| |? ? ?]; simpl; done.
  - rewrite Hz. destruct (Prim2SF x) as [?|?| |? ? ?]; simpl; done.
Qed.

Lemma SFcompare_refl X : X <> S754_nan -> SFcompare X X = Some Eq.
Proof.
  destruct X as [s|[|]| |[|] m e]; simpl; try done; intros _;
    rewrite Z.compare_refl, Pos.compare_cont_refl; done.
Qed.

(** [x <= x] fails for NaN only. *)
Lemma leb_refl_false x : (x <=? x) = false -> Prim2SF x = S754_nan.
Proof.
  rewrite FloatAxioms.leb_spec. unfold SFleb. intros H.
  destruct (Prim2SF x) as [s|s| |s m e] eqn:E; [| |done|];
    rewrite SFcompare_refl in H; done.
Qed.

(** ** Doubles: the operations round monotonically *)

(** ** Powers of two *)

Lemma bpow_pos e : (0 < bpow e)%R.
Proof. apply powerRZ_lt. lra. Qed.

Lemma bpow_add a b : bpow (a + b) = (bpow a * bpow b)%R.
Proof. apply powerRZ_add. lra. Qed.

Lemma bpow_0 : bpow 0 = 1%R.
Proof. reflexivity. Qed.

Lemma bpow_1 : bpow 1 = 2%R.
Proof. unfold bpow. simpl. lra. Qed.

Lemma bpow_succ e : bpow (e + 1) = (2 * bpow e)%R.
Proof. rewrite bpow_add, bpow_1. lra. Qed.

Lemma bpow_ge_1 n : (0 <= n)%Z -> (1 <= bpow n)%R.
Proof.
  revert n. apply natlike_ind.
  - rewrite bpow_0. lra.
  - intros n Hn IH. unfold Z.succ. rewrite bpow_succ. lra.
Qed.

Lemma bpow_le a b : (a <= b)%Z -> (bpow a <= bpow b)%R.
Proof.
  intros H. replace b with (a + (b - a))%Z by lia. rewrite bpow_add.
  pose proof (bpow_ge_1 (b - a) ltac:(lia)). pose proof (bpow_pos a). nra.
Qed.

Lemma bpow_lt a b : (a < b)%Z -> (bpow a < bpow b)%R.
Proof.
  intros H. pose proof (bpow_le (a + 1) b ltac:(lia)) as Hle.
  rewrite bpow_succ in Hle. pose proof (bpow_pos a). lra.
Qed.


Lemma bpow_IZR n : (0 <= n)%Z -> IZR (2 ^ n) = bpow n.
Proof.
  revert n. apply natlike_ind.
  - done.
  - intros n Hn IH. rewrite Z.pow_succ_r by done. rewrite mult_IZR, IH.
    unfold Z.succ. rewrite bpow_succ. done.
Qed.

(** ** Number of binary digits *)

Lemma digits2_pos_bounds p :
  (2 ^ (Z.pos (digits2_pos p) - 1) <= Z.pos p < 2 ^ Z.pos (digits2_pos p))%Z.
Proof.
  induction p as [p IH|p IH|]; simpl digits2_pos.
  - rewrite Pos2Z.inj_succ. replace (Z.succ (Z.pos (digits2_pos p)) - 1)%Z
      with (Z.succ (Z.pos (digits2_pos p) - 1)) by lia.
    rewrite !Z.pow_succ_r by lia. lia.
  - rewrite Pos2Z.inj_succ. replace (Z.succ (Z.pos (digits2_pos p)) - 1)%Z
      with (Z.succ (Z.pos (digits2_pos p) - 1)) by lia.
    rewrite !Z.pow_succ_r by lia. lia.
  - simpl. lia.
Qed.

Lemma digits2_pos_bpow p :
  (bpow (Z.pos (digits2_pos p) - 1) <= IZR (Z.pos p) < bpow (Z.pos (digits2_pos p)))%R.
Proof.
  destruct (digits2_pos_bounds p) as [H1 H2].
  rewrite <- !bpow_IZR by lia. split; [by apply IZR_le | by apply IZR_lt].
Qed.


Lemma digits_of_bounds p d :
  (2 ^ (d - 1) <= Z.pos p < 2 ^ d)%Z -> Z.pos (digits2_pos p) = d.
Proof.
  intros [H1 H2]. destruct (digits2_pos_bounds p) as [H3 H4].
  assert (0 < d)%Z.
  { destruct (Z_lt_le_dec 0%Z d); [done|]. rewrite Z.pow_neg_r in H1 by lia.
    destruct (Z.eq_dec d 0%Z) as [->|]; [simpl in H2; lia|].
    rewrite Z.pow_neg_r in H2 by lia. lia. }
  assert (d - 1 < Z.pos (digits2_pos p))%Z.
  { apply (Z.pow_lt_mono_r_iff 2%Z); lia. }
  assert (Z.pos (digits2_pos p) - 1 < d)%Z.
  { apply (Z.pow_lt_mono_r_iff 2%Z); lia. }
  lia.
Qed.

(** ** Rounding to the nearest integer, ties to even *)

Lemma is_rne_mono x1 q1 x2 q2 :
  is_rne x1 q1 -> is_rne x2 q2 -> (x1 <= x2)%R -> (q1 <= q2)%Z.
Proof.
  intros H1 H2 Hx. destruct (Z_le_gt_dec q1 q2) as [|Hgt]; [done|]. exfalso.
  assert (IZR q2 + 1 <= IZR q1)%R as Hq.
  { rewrite <- plus_IZR. apply IZR_le. lia. }
  destruct H1 as [H1|[H1 E1]]; destruct H2 as [H2|[H2 E2]]; try lra.
  assert (q1 = q2 + 1)%Z as ->.
  { apply eq_IZR. rewrite plus_IZR. destruct H1, H2; lra. }
  rewrite Z.even_add in E1. rewrite E2 in E1. done.
Qed.

Lemma is_rne_IZR k : is_rne (IZR k) k.
Proof. left. lra. Qed.

Lemma is_rne_ge x q k : is_rne x q -> (IZR k <= x)%R -> (k <= q)%Z.
Proof. intros H Hk. exact (is_rne_mono _ _ _ _ (is_rne_IZR k) H Hk). Qed.

Lemma is_rne_le x q k : is_rne x q -> (x <= IZR k)%R -> (q <= k)%Z.
Proof. intros H Hk. exact (is_rne_mono _ _ _ _ H (is_rne_IZR k) Hk). Qed.

Lemma bpow_div_mul x e : (x / bpow e * bpow e = x)%R.
Proof. pose proof (bpow_pos e). field. lra. Qed.

Lemma bpow_mul_div x e : (x * bpow e / bpow e = x)%R.
Proof. pose proof (bpow_pos e). field. lra. Qed.

Lemma bpow_div_split x e n : (x * bpow e / bpow (e + n) = x / bpow n)%R.
Proof. rewrite bpow_add. pose proof (bpow_pos e). pose proof (bpow_pos n). field. lra. Qed.

(** ** The right shift of the rounding functions *)

Lemma shr_1_spec m r s :
  (0 <= m)%Z ->
  shr_1 {| shr_m := m; shr_r := r; shr_s := s |}
  = {| shr_m := Z.div2 m; shr_r := Z.odd m; shr_s := r || s |}.
Proof. intros Hm. destruct m as [|[p|p|]|p]; simpl; done || lia. Qed.

Lemma shr_inv_0 m :
  (0 <= m)%Z -> shr_inv m 0 {| shr_m := m; shr_r := false; shr_s := false |}.
Proof. intros Hm. split; [done|]. exists 0%Z. simpl. lia. Qed.

Lemma shr_inv_step m k mrs :
  (0 <= k)%Z -> shr_inv m k mrs -> shr_inv m (k + 1) (shr_1 mrs).
Proof.
  intros Hk [Hq (rem & Hm & Hrem & Hloc)]. destruct mrs as [q r s].
  cbn [shr_m shr_r shr_s] in *.
  rewrite shr_1_spec by done. unfold shr_inv. cbn [shr_m shr_r shr_s].
  pose proof (Z.div2_odd q) as Hodd.
  assert (0 <= Z.div2 q)%Z as Hq' by by apply Z.div2_nonneg.
  assert (0 < 2 ^ k)%Z as Hpow by by apply Z.pow_pos_nonneg.
  rewrite Z.pow_add_r, Z.pow_1_r by lia.
  split; [done|].
  exists (rem + Z.b2z (Z.odd q) * 2 ^ k)%Z.
  destruct (Z.odd q), r, s; simpl in *; repeat split; try lia; nia.
Qed.

Lemma shr_inv_iter m p : forall k mrs,
  (0 <= k)%Z -> shr_inv m k mrs ->
  shr_inv m (k + Z.pos p) (SpecFloat.iter_pos shr_1 p mrs).
Proof.
  induction p as [p IH|p IH|]; intros k mrs Hk Hinv; simpl SpecFloat.iter_pos.
  - replace (k + Z.pos p~1)%Z with ((k + 1) + Z.pos p + Z.pos p)%Z by lia.
    apply IH; [lia|]. apply IH; [lia|]. by apply shr_inv_step.
  - replace (k + Z.pos p~0)%Z with (k + Z.pos p + Z.pos p)%Z by lia.
    apply IH; [lia|]. by apply IH.
  - by apply shr_inv_step.
Qed.

Lemma shr_inv_rne m k mrs :
  (0 < k)%Z -> shr_inv m k mrs ->
  is_rne (IZR m / bpow k)
         (round_nearest_even (shr_m mrs) (loc_of_shr_record mrs))
  /\ (0 <= round_nearest_even (shr_m mrs) (loc_of_shr_record mrs))%Z.
Proof.
  intros Hk [Hq (rem & Hm & Hrem & Hloc)]. destruct mrs as [q r s]. simpl in *.
  pose proof (bpow_pos k) as Hb.
  assert (IZR m / bpow k = IZR q + IZR rem / bpow k)%R as ->.
  { rewrite Hm, plus_IZR, mult_IZR, bpow_IZR by lia. field. lra. }
  assert (forall a b : Z, (a < b)%Z -> (IZR a < IZR b)%R) as Hlt by (intros; by apply IZR_lt).
  assert (IZR (2 ^ k) = bpow k) as Hpk by (apply bpow_IZR; lia).
  destruct r, s; simpl.
  - (* more than half *)
    split; [|lia]. left. rewrite plus_IZR.
    assert (bpow k < 2 * IZR rem)%R.
    { rewrite <- Hpk, <- (mult_IZR 2). apply IZR_lt. lia. }
    assert (IZR rem < bpow k)%R by (rewrite <- Hpk; apply IZR_lt; lia).
    assert (1 / 2 < IZR rem / bpow k < 1)%R.
    { split.
      - apply (Rmult_lt_reg_r (bpow k)); [done|]. field_simplify; lra.
      - apply (Rmult_lt_reg_r (bpow k)); [done|]. field_simplify; lra. }
    lra.
  - (* exactly half *)
    assert (IZR rem / bpow k = 1 / 2)%R as ->.
    { assert (2 * IZR rem = bpow k)%R as Hhalf.
      { rewrite <- Hpk, <- (mult_IZR 2). f_equal. lia. }
      replace (IZR rem) with (bpow k / 2)%R by lra. field. lra. }
    destruct (Z.even q) eqn:Hev.
    + split; [|lia]. right. split; [|done]. left. lra.
    + split; [|lia]. right. split; [right; rewrite plus_IZR; lra|].
      rewrite Z.even_add, Hev. done.
  - (* less than half *)
    split; [|lia]. left.
    assert (0 < IZR rem)%R by (apply (Hlt 0%Z); lia).
    assert (2 * IZR rem < bpow k)%R.
    { rewrite <- Hpk, <- (mult_IZR 2). apply IZR_lt. lia. }
    assert (0 < IZR rem / bpow k < 1 / 2)%R.
    { split.
      - apply (Rmult_lt_reg_r (bpow k)); [done|]. field_simplify; lra.
      - apply (Rmult_lt_reg_r (bpow k)); [done|]. field_simplify; lra. }
    lra.
  - (* exact *)
    split; [|lia]. left. subst rem. unfold Rdiv. rewrite Rmult_0_l. lra.
Qed.

(** ** The rounding of a positive mantissa and exponent *)

Lemma fexp_eq x : fexp prec emax x = Z.max (x - 53) (-1074).
Proof. reflexivity. Qed.

Lemma shr_fexp_first pm e :
  let E := fexp prec emax (Z.pos (digits2_pos pm) + e) in
  (e <= E)%Z ->
  exists mrs,
    shr_fexp prec emax (Z.pos pm) e loc_Exact = (mrs, E)
    /\ is_rne (IZR (Z.pos pm) * bpow e / bpow E)
              (round_nearest_even (shr_m mrs) (loc_of_shr_record mrs))
    /\ (0 <= round_nearest_even (shr_m mrs) (loc_of_shr_record mrs))%Z.
Proof.
  intros E HE. unfold shr_fexp, shr. cbn [Zdigits2 shr_record_of_loc]. fold E.
  pose proof (bpow_pos e) as Hbe.
  destruct (E - e)%Z as [|n|n] eqn:Hn.
  - assert (E = e) as -> by lia. eexists. split; [reflexivity|]. simpl.
    split; [|lia]. left.
    rewrite bpow_mul_div. lra.
  - eexists. split; [f_equal; lia|].
    assert (shr_inv (Z.pos pm) (0 + Z.pos n)
              (SpecFloat.iter_pos shr_1 n
                 {| shr_m := Z.pos pm; shr_r := false; shr_s := false |})) as Hinv.
    { apply shr_inv_iter; [lia|]. apply shr_inv_0. lia. }
    apply shr_inv_rne in Hinv; [|lia].
    replace E with (e + Z.pos n)%Z by lia. rewrite bpow_div_split.
    exact Hinv.
  - lia.
Qed.

Lemma shr_fexp_second q E :
  (0 <= q <= 2 ^ 53)%Z -> (-1074 <= E)%Z ->
  exists mrs e'',
    shr_fexp prec emax q E loc_Exact = (mrs, e'')
    /\ ((q = 0%Z /\ shr_m mrs = 0%Z)
        \/ (exists m, shr_m mrs = Z.pos m
                      /\ (IZR (Z.pos m) * bpow e'' = IZR q * bpow E)%R
                      /\ (e'' = E \/ (e'' = E + 1 /\ q = 2 ^ 53)%Z))).
Proof.
  intros [Hq0 Hq] HE. unfold shr_fexp, shr. cbn [shr_record_of_loc].
  destruct q as [|pq|pq]; [| |lia].
  - simpl Zdigits2. rewrite fexp_eq.
    destruct (Z.max (0 + E - 53) (-1074) - E)%Z eqn:Hn; try lia;
      eexists _, _; (split; [reflexivity|]); left; done.
  - cbn [Zdigits2]. rewrite fexp_eq.
    destruct (Z.eq_dec (Z.pos pq) (2 ^ 53)%Z) as [Heq|Hne].
    + assert (Z.pos (digits2_pos pq) = 54%Z) as ->.
      { apply digits_of_bounds. rewrite Heq. split; [lia|]. by apply Z.pow_lt_mono_r. }
      replace (Z.max (54 + E - 53) (-1074) - E)%Z with 1%Z by lia.
      cbn [SpecFloat.iter_pos]. rewrite shr_1_spec by lia. cbn [shr_m].
      eexists _, _. split; [reflexivity|]. right.
      exists (2 ^ 52)%positive. rewrite Heq.
      split; [reflexivity|]. split; [|right; done].
      rewrite bpow_succ.
      change (IZR (Z.pos (2 ^ 52))) with (IZR (2 ^ 52)).
      rewrite !bpow_IZR by lia.
      replace 53%Z with (52 + 1)%Z by lia. rewrite bpow_succ. lra.
    + pose proof (digits2_pos_bounds pq) as [Hd1 Hd2].
      assert (Z.pos (digits2_pos pq) <= 53)%Z as Hd.
      { assert (Z.pos (digits2_pos pq) - 1 < 53)%Z; [|lia].
        apply (Z.pow_lt_mono_r_iff 2%Z); lia. }
      destruct (Z.max (Z.pos (digits2_pos pq) + E - 53) (-1074) - E)%Z eqn:Hn; try lia;
        eexists _, _; (split; [reflexivity|]); right; exists pq;
        (split; [reflexivity|]); split; [done|by left|done|by left].
Qed.

Lemma binary_round_aux_spec s pm e :
  let E := fexp prec emax (Z.pos (digits2_pos pm) + e) in
  (e <= E)%Z ->
  exists q,
    is_rne (IZR (Z.pos pm) * bpow e / bpow E) q /\ (0 <= q)%Z
    /\ out_spec s q E (binary_round_aux prec emax s (Z.pos pm) e loc_Exact).
Proof.
  intros E HE. unfold binary_round_aux.
  destruct (shr_fexp_first pm e HE) as (mrs & -> & Hrne & Hq0). fold E in Hrne.
  cbv beta iota.
  set (q := round_nearest_even (shr_m mrs) (loc_of_shr_record mrs)) in *.
  set (d := Z.pos (digits2_pos pm)) in *.
  pose proof (digits2_pos_bpow pm) as [Hm1 Hm2]. fold d in Hm1, Hm2.
  pose proof (bpow_pos e) as Hbe. pose proof (bpow_pos E) as HbE.
  assert (-1074 <= E /\ d + e - 53 <= E)%Z as [HEmin HEd].
  { unfold E. rewrite fexp_eq. lia. }
  (* the scaled value is below 2^53 *)
  assert (IZR (Z.pos pm) * bpow e / bpow E < bpow 53)%R as Hy.
  { apply (Rmult_lt_reg_r (bpow E)); [done|].
    rewrite bpow_div_mul, <- bpow_add.
    apply Rlt_le_trans with (bpow d * bpow e)%R; [nra|].
    rewrite <- bpow_add. apply bpow_le. lia. }
  assert (q <= 2 ^ 53)%Z as Hq.
  { apply (is_rne_le _ _ _ Hrne). rewrite bpow_IZR by lia. lra. }
  fold E.
  destruct (shr_fexp_second q E (conj Hq0 Hq) HEmin) as (mrs2 & e2 & -> & Hcase).
  cbv beta iota.
  exists q. split; [done|]. split; [done|].
  destruct Hcase as [[Hqz ->]|(m2 & -> & Hval & He2)].
  - left. done.
  - right. destruct (e2 <=? emax - prec)%Z eqn:Hov.
    + left. by exists m2, e2.
    + right. split; [done|]. apply Z.leb_gt in Hov.
      change (emax - prec)%Z with 971%Z in Hov.
      destruct He2 as [->|[-> Hq53]].
      * (* a normal number: the rounded mantissa has 53 bits *)
        assert (E = d + e - 53)%Z as HEeq
          by (revert Hov; unfold E; rewrite fexp_eq; lia).
        assert (2 ^ 52 <= q)%Z as Hq52.
        { apply (is_rne_ge _ _ _ Hrne). rewrite bpow_IZR by lia.
          apply (Rmult_le_reg_r (bpow E)); [done|].
          rewrite bpow_div_mul, <- bpow_add.
          apply Rle_trans with (bpow (d - 1) * bpow e)%R; [|nra].
          rewrite <- bpow_add. apply bpow_le. lia. }
        apply Rle_trans with (bpow 52 * bpow E)%R.
        -- rewrite <- bpow_add. apply bpow_le. lia.
        -- apply IZR_le in Hq52. rewrite bpow_IZR in Hq52 by lia. nra.
      * rewrite Hq53, bpow_IZR, <- bpow_add by lia. apply bpow_le. lia.
Qed.

(** ** Non-negative doubles and their real values *)

Lemma valid_finite s m e :
  valid_binary (S754_finite s m e) = true ->
  (e = Z.max (Z.pos (digits2_pos m) + e - 53) (-1074) /\ e <= 971)%Z.
Proof.
  unfold SpecFloat.valid_binary, SpecFloat.bounded, SpecFloat.canonical_mantissa.
  rewrite fexp_eq.
  intros [H1 H2]%andb_true_iff. apply Z.eqb_eq in H1. apply Z.leb_le in H2.
  change (emax - prec)%Z with 971%Z in H2. lia.
Qed.

Lemma pos_val_bounds m e :
  (bpow (Z.pos (digits2_pos m) + e - 1) <= IZR (Z.pos m) * bpow e
   < bpow (Z.pos (digits2_pos m) + e))%R.
Proof.
  pose proof (digits2_pos_bpow m) as [H1 H2]. pose proof (bpow_pos e).
  replace (Z.pos (digits2_pos m) + e - 1)%Z with (Z.pos (digits2_pos m) - 1 + e)%Z by lia.
  rewrite !bpow_add. split; nra.
Qed.

Lemma valid_val_lt_max m e :
  valid_binary (S754_finite false m e) = true ->
  (0 < IZR (Z.pos m) * bpow e < bpow 1024)%R.
Proof.
  intros [Hc He]%valid_finite. pose proof (pos_val_bounds m e) as [H1 H2].
  pose proof (bpow_pos (Z.pos (digits2_pos m) + e - 1)).
  split; [lra|]. apply Rlt_le_trans with (1 := H2). apply bpow_le. lia.
Qed.

(** On valid numbers the order of the exponents decides the order of the
    values. *)
Lemma canonical_exponent_lt m1 e1 m2 e2 :
  valid_binary (S754_finite false m1 e1) = true ->
  valid_binary (S754_finite false m2 e2) = true ->
  (e1 < e2)%Z -> (IZR (Z.pos m1) * bpow e1 < IZR (Z.pos m2) * bpow e2)%R.
Proof.
  intros [Hc1 _]%valid_finite [Hc2 _]%valid_finite He.
  pose proof (pos_val_bounds m1 e1) as [_ H1].
  pose proof (pos_val_bounds m2 e2) as [H2 _].
  apply Rlt_le_trans with (1 := H1). apply Rle_trans with (2 := H2).
  apply bpow_le. lia.
Qed.

Lemma SFcompare_val X Y :
  valid_binary X = true -> valid_binary Y = true -> NNfin X -> NNfin Y ->
  exists c, SFcompare X Y = Some c
            /\ match c with
               | Lt => (SFval X < SFval Y)%R
               | Eq => SFval X = SFval Y
               | Gt => (SFval Y < SFval X)%R
               end.
Proof.
  intros HX HY.
  destruct X as [sx|sx| |[|] mx ex], Y as [sy|sy| |[|] my ey]; try done; intros _ _.
  - by exists Eq.
  - exists Lt. split; [done|]. apply (valid_val_lt_max _ _ HY).
  - exists Gt. split; [done|]. apply (valid_val_lt_max _ _ HX).
  - cbn [SFcompare SFval].
    destruct (ex ?= ey)%Z eqn:He.
    + apply Z.compare_eq in He as ->. rewrite Pos.compare_cont_spec.
      pose proof (bpow_pos ey).
      destruct (mx ?= my)%positive eqn:Hm; cbn [Pos.switch_Eq];
        eexists; (split; [reflexivity|]); cbv iota.
      * apply Pos.compare_eq in Hm as ->. done.
      * apply Rmult_lt_compat_r; [done|]. apply IZR_lt. exact Hm.
      * apply Rmult_lt_compat_r; [done|]. apply IZR_lt.
        apply Pos.compare_gt_iff in Hm. exact Hm.
    + exists Lt. split; [done|]. apply canonical_exponent_lt; [done..|].
      by apply Z.compare_lt_iff.
    + exists Gt. split; [done|]. apply canonical_exponent_lt; [done..|].
      apply Z.compare_gt_iff in He. lia.
Qed.

Lemma SFleb_val X Y :
  valid_binary X = true -> valid_binary Y = true -> NNfin X -> NNfin Y ->
  SFleb X Y = true <-> (SFval X <= SFval Y)%R.
Proof.
  intros HX HY NX NY. destruct (SFcompare_val X Y HX HY NX NY) as (c & Hc & Hv).
  unfold SFleb. rewrite Hc. destruct c; split; try done; lra.
Qed.


(** ** Rounding as a relation between a positive real and a double *)

Lemma binary_round_aux_rnd pm e :
  (e <= fexp prec emax (Z.pos (digits2_pos pm) + e))%Z ->
  rnd_of (IZR (Z.pos pm) * bpow e)
         (binary_round_aux prec emax false (Z.pos pm) e loc_Exact).
Proof.
  intros HE. destruct (binary_round_aux_spec false pm e HE) as (q & Hq & Hq0 & Hout).
  exists (Z.pos (digits2_pos pm) + e)%Z, q. split; [apply pos_val_bounds|]. done.
Qed.

Lemma rnd_of_NN x X : rnd_of x X -> NN X.
Proof.
  intros (mag & q & _ & _ & _ & [[_ ->]|[(m & e & -> & _)|[-> _]]]); done.
Qed.





(** A valid positive number is the rounding of its own value. *)
Lemma valid_rnd_self m e :
  valid_binary (S754_finite false m e) = true ->
  rnd_of (IZR (Z.pos m) * bpow e) (S754_finite false m e).
Proof.
  intros [Hc He]%valid_finite.
  exists (Z.pos (digits2_pos m) + e)%Z, (Z.pos m).
  split; [apply pos_val_bounds|]. rewrite fexp_eq, <- Hc.
  split; [rewrite bpow_mul_div; apply is_rne_IZR|].
  split; [lia|]. right. left. by exists m, e.
Qed.

(** ** The operations as roundings of the exact results *)

Lemma iter_xO_val m d : Z.pos (Pos.iter xO m d) = (Z.pos m * 2 ^ Z.pos d)%Z.
Proof.
  change (Pos.iter xO m d) with (shift_pos d m). rewrite shift_pos_correct.
  change (Z.pow_pos 2 d) with (2 ^ Z.pos d)%Z. lia.
Qed.

Lemma digits_shift m k :
  (0 <= k)%Z -> forall p, Z.pos p = (Z.pos m * 2 ^ k)%Z ->
  Z.pos (digits2_pos p) = (Z.pos (digits2_pos m) + k)%Z.
Proof.
  intros Hk p Hp. apply digits_of_bounds. rewrite Hp.
  destruct (digits2_pos_bounds m) as [H1 H2].
  assert (0 < 2 ^ k)%Z by by apply Z.pow_pos_nonneg.
  replace (Z.pos (digits2_pos m) + k - 1)%Z with (Z.pos (digits2_pos m) - 1 + k)%Z by lia.
  rewrite !Z.pow_add_r by lia. nia.
Qed.

(** [shl_align] keeps the value and the magnitude and lowers the exponent
    to the one asked for, when it is lower. *)
Lemma shl_align_spec mx ex ex' :
  (IZR (Z.pos (fst (shl_align mx ex ex'))) * bpow (snd (shl_align mx ex ex'))
   = IZR (Z.pos mx) * bpow ex)%R
  /\ snd (shl_align mx ex ex') = Z.min ex ex'
  /\ (Z.pos (digits2_pos (fst (shl_align mx ex ex'))) + snd (shl_align mx ex ex')
      = Z.pos (digits2_pos mx) + ex)%Z.
Proof.
  unfold shl_align. destruct (ex' - ex)%Z as [|d|d] eqn:Hd; cbn [fst snd].
  - split; [done|]. split; lia.
  - split; [done|]. split; lia.
  - pose proof (iter_xO_val mx d) as Hv.
    rewrite (digits_shift mx (Z.pos d) ltac:(lia) _ Hv), Hv.
    split; [|split; lia].
    rewrite mult_IZR, bpow_IZR by lia.
    replace (bpow ex) with (bpow (Z.pos d) * bpow ex')%R
      by (rewrite <- bpow_add; f_equal; lia).
    lra.
Qed.

Lemma binary_round_rnd pm e :
  rnd_of (IZR (Z.pos pm) * bpow e) (binary_round prec emax false pm e).
Proof.
  unfold binary_round.
  pose proof (shl_align_spec pm e (fexp prec emax (Z.pos (digits2_pos pm) + e)))
    as (Hv & He & Hd).
  destruct (shl_align pm e _) as [mz ez]. cbn [fst snd] in *.
  rewrite <- Hv. apply binary_round_aux_rnd. rewrite Hd. lia.
Qed.

Lemma SFmul_rnd mx ex my ey :
  valid_binary (S754_finite false mx ex) = true ->
  valid_binary (S754_finite false my ey) = true ->
  rnd_of (IZR (Z.pos mx) * bpow ex * (IZR (Z.pos my) * bpow ey))
         (SFmul prec emax (S754_finite false mx ex) (S754_finite false my ey)).
Proof.
  intros [Hcx _]%valid_finite [Hcy _]%valid_finite. cbn [SFmul xorb].
  replace (IZR (Z.pos mx) * bpow ex * (IZR (Z.pos my) * bpow ey))%R
    with (IZR (Z.pos (mx * my)) * bpow (ex + ey))%R.
  2:{ rewrite Pos2Z.inj_mul, mult_IZR, bpow_add. lra. }
  apply binary_round_aux_rnd. rewrite fexp_eq.
  (* the product has at least as many digits as the two factors less one *)
  assert (Z.pos (digits2_pos mx) + Z.pos (digits2_pos my) - 1
          <= Z.pos (digits2_pos (mx * my)))%Z as Hd.
  { destruct (digits2_pos_bounds mx) as [Hx1 _].
    destruct (digits2_pos_bounds my) as [Hy1 _].
    destruct (digits2_pos_bounds (mx * my)) as [_ Hp2].
    rewrite Pos2Z.inj_mul in Hp2.
    assert (2 ^ (Z.pos (digits2_pos mx) - 1 + (Z.pos (digits2_pos my) - 1))
            < 2 ^ Z.pos (digits2_pos (mx * my)))%Z as Hlt.
    { rewrite Z.pow_add_r by lia.
      assert (0 < 2 ^ (Z.pos (digits2_pos mx) - 1))%Z by (apply Z.pow_pos_nonneg; lia).
      assert (0 < 2 ^ (Z.pos (digits2_pos my) - 1))%Z by (apply Z.pow_pos_nonneg; lia).
      nia. }
    apply Z.pow_lt_mono_r_iff in Hlt; lia. }
  lia.
Qed.

Lemma SFadd_rnd mx ex my ey :
  rnd_of (IZR (Z.pos mx) * bpow ex + IZR (Z.pos my) * bpow ey)
         (SFadd prec emax (S754_finite false mx ex) (S754_finite false my ey)).
Proof.
  cbn [SFadd cond_Zopp].
  pose proof (shl_align_spec mx ex (Z.min ex ey)) as (Hvx & Hex & _).
  pose proof (shl_align_spec my ey (Z.min ex ey)) as (Hvy & Hey & _).
  destruct (shl_align mx ex _) as [mx' ex'], (shl_align my ey _) as [my' ey'].
  cbn [fst snd] in *.
  replace (Z.min ex (Z.min ex ey)) with (Z.min ex ey) in Hex by lia.
  replace (Z.min ey (Z.min ex ey)) with (Z.min ex ey) in Hey by lia.
  subst ex' ey'. rewrite <- Hvx, <- Hvy.
  change (Z.pos mx' + Z.pos my')%Z with (Z.pos (mx' + my')).
  cbn [binary_normalize].
  replace (IZR (Z.pos mx') * bpow (Z.min ex ey) + IZR (Z.pos my') * bpow (Z.min ex ey))%R
    with (IZR (Z.pos (mx' + my')) * bpow (Z.min ex ey))%R.
  2:{ rewrite Pos2Z.inj_add, plus_IZR. lra. }
  apply binary_round_rnd.
Qed.

Lemma SFsub_rnd mx ex my ey :
  (IZR (Z.pos my) * bpow ey < IZR (Z.pos mx) * bpow ex)%R ->
  rnd_of (IZR (Z.pos mx) * bpow ex - IZR (Z.pos my) * bpow ey)
         (SFsub prec emax (S754_finite false mx ex) (S754_finite false my ey)).
Proof.
  intros Hlt. cbn [SFsub cond_Zopp].
  pose proof (shl_align_spec mx ex (Z.min ex ey)) as (Hvx & Hex & _).
  pose proof (shl_align_spec my ey (Z.min ex ey)) as (Hvy & Hey & _).
  destruct (shl_align mx ex _) as [mx' ex'], (shl_align my ey _) as [my' ey'].
  cbn [fst snd] in *.
  replace (Z.min ex (Z.min ex ey)) with (Z.min ex ey) in Hex by lia.
  replace (Z.min ey (Z.min ex ey)) with (Z.min ex ey) in Hey by lia.
  subst ex' ey'. rewrite <- Hvx, <- Hvy in *.
  pose proof (bpow_pos (Z.min ex ey)) as Hb.
  assert (Z.pos my' < Z.pos mx')%Z as Hm.
  { apply lt_IZR. nra. }
  destruct (Z.pos mx' - Z.pos my')%Z as [|k|k] eqn:Hk; [lia| |lia].
  cbn [binary_normalize].
  replace (IZR (Z.pos mx') * bpow (Z.min ex ey) - IZR (Z.pos my') * bpow (Z.min ex ey))%R
    with (IZR (Z.pos k) * bpow (Z.min ex ey))%R.
  2:{ rewrite <- Hk, minus_IZR. lra. }
  apply binary_round_rnd.
Qed.

(** ** Roundings of non-negative reals, zero included *)

Lemma rnd0_NN x X : rnd0 x X -> NN X.
Proof. intros [[_ [s ->]]|[_ H]]; [done|]. by eapply rnd_of_NN. Qed.

Lemma SFleb_zero_NN s X : NN X -> SFleb (S754_zero s) X = true.
Proof. destruct X as [?|[|]| |[|] m e]; done. Qed.



Lemma pos_val_pos m e : (0 < IZR (Z.pos m) * bpow e)%R.
Proof.
  pose proof (bpow_pos e). assert (0 < IZR (Z.pos m))%R by by apply IZR_lt. nra.
Qed.


Lemma rnd0_mul X m e :
  valid_binary X = true -> valid_binary (S754_finite false m e) = true -> NNfin X ->
  rnd0 (SFval X * (IZR (Z.pos m) * bpow e))
       (SFmul prec emax X (S754_finite false m e)).
Proof.
  destruct X as [s|?| |[|] mx ex]; try done; intros HV HL _.
  - left. simpl. split; [lra|]. by eexists.
  - right. cbn [SFval]. pose proof (pos_val_pos mx ex). pose proof (pos_val_pos m e).
    split; [nra|]. by apply SFmul_rnd.
Qed.

Lemma rnd0_add P T :
  valid_binary P = true -> valid_binary T = true -> NNfin P -> NNfin T ->
  rnd0 (SFval P + SFval T) (SFadd prec emax P T).
Proof.
  destruct P as [sp|?| |[|] mp ep], T as [st|?| |[|] mt et]; try done;
    intros HP HT _ _.
  - left. simpl. split; [lra|]. destruct sp, st; by eexists.
  - right. cbn [SFval SFadd]. rewrite Rplus_0_l.
    split; [apply pos_val_pos|]. by apply valid_rnd_self.
  - right. cbn [SFval SFadd]. rewrite Rplus_0_r.
    split; [apply pos_val_pos|]. by apply valid_rnd_self.
  - right. cbn [SFval]. pose proof (pos_val_pos mp ep). pose proof (pos_val_pos mt et).
    split; [lra|]. apply SFadd_rnd.
Qed.

Lemma rnd0_sub ma ea mf ef :
  (IZR (Z.pos mf) * bpow ef < IZR (Z.pos ma) * bpow ea)%R ->
  rnd0 (IZR (Z.pos ma) * bpow ea - IZR (Z.pos mf) * bpow ef)
       (SFsub prec emax (S754_finite false ma ea) (S754_finite false mf ef)).
Proof. intros Hlt. right. split; [lra|]. by apply SFsub_rnd. Qed.

(** ** The order of non-negative doubles *)

Lemma NN_cases X : NN X -> NNfin X \/ X = S754_infinity false.
Proof. destruct X as [?|[|]| |[|] m e]; try done; auto. Qed.

Lemma NNfin_NN X : NNfin X -> NN X.
Proof. destruct X as [?|[|]| |[|] m e]; done. Qed.


Lemma SFleb_refl_NN X : NN X -> SFleb X X = true.
Proof.
  intros HN. unfold SFleb. rewrite SFcompare_refl; [done|]. by destruct X.
Qed.


Lemma SFltb_leb X Y : SFltb X Y = true -> SFleb X Y = true.
Proof. unfold SFltb, SFleb. by destruct (SFcompare X Y) as [[| |]|]. Qed.

(** ** Multiplying by a positive finite number, adding and subtracting *)

Section Positive.
Variables (ml : positive) (el : Z).
Hypothesis HL : valid_binary (S754_finite false ml el) = true.

Lemma SFmul_NN X :
  valid_binary X = true -> NN X -> NN (SFmul prec emax X (S754_finite false ml el)).
Proof.
  intros HV [FX| ->]%NN_cases; [|done].
  eapply rnd0_NN. by apply rnd0_mul.
Qed.


End Positive.

Lemma SFadd_NN P T :
  valid_binary P = true -> valid_binary T = true -> NN P -> NN T ->
  NN (SFadd prec emax P T).
Proof.
  intros HP HT [FP| ->]%NN_cases [FT| ->]%NN_cases.
  - eapply rnd0_NN. by apply rnd0_add.
  - by destruct P as [?|?| |[|] ? ?].
  - by destruct T as [?|?| |[|] ? ?].
  - done.
Qed.





Section Minus.
Variables (my : positive) (ey : Z).
Hypothesis HY : valid_binary (S754_finite false my ey) = true.

Lemma above_shape X :
  above my ey X -> (exists m e, X = S754_finite false m e
                          /\ (IZR (Z.pos my) * bpow ey < IZR (Z.pos m) * bpow e)%R)
             \/ X = S754_infinity false.
Proof.
  intros [[FX Hlt]| ->]; [left|by right].
  pose proof (pos_val_pos my ey).
  destruct X as [?|?| |[|] m e]; try done; simpl in Hlt; [lra|]. by exists m, e.
Qed.

Lemma SFsub_NN X : above my ey X -> NN (SFsub prec emax X (S754_finite false my ey)).
Proof.
  intros [(m & e & -> & Hlt)| ->]%above_shape; [|done].
  eapply rnd0_NN. by apply rnd0_sub.
Qed.


End Minus.

(** ** The conversion formulas on doubles *)

Lemma positive_finite_shape x :
  (0 <? x) = true -> is_finite x = true ->
  exists m e, Prim2SF x = S754_finite false m e.
Proof.
  unfold is_finite, is_nan, is_infinity.
  rewrite FloatAxioms.ltb_spec, !FloatAxioms.eqb_spec, abs_spec, Prim2SF_zero.
  replace (Prim2SF infinity) with (S754_infinity false) by reflexivity.
  destruct (Prim2SF x) as [s|[|]| |[|] m e]; try done. intros _ _. by exists m, e.
Qed.

Lemma nonneg_NN x : (0 <=? x) = true -> NN (Prim2SF x).
Proof.
  rewrite FloatAxioms.leb_spec, Prim2SF_zero.
  by destruct (Prim2SF x) as [s|[|]| |[|] m e].
Qed.



(** Not at most a finite positive number: above it. *)
Lemma not_leb_above my ey X :
  valid_binary (S754_finite false my ey) = true -> valid_binary X = true ->
  NN X -> SFleb X (S754_finite false my ey) = false -> above my ey X.
Proof.
  intros HY HX [FX| ->]%NN_cases Hle; [left|by right].
  split; [done|].
  destruct (Rlt_le_dec (SFval (S754_finite false my ey)) (SFval X)) as [|Hge]; [done|].
  apply (SFleb_val X) in Hge; [|done..]. congruence.
Qed.


(** ** The conversion *)

(** C1. When the lookup of line 10 finds a record, the result is the
    double [petAge * firstPhaseValue] when [petAge <= firstPhaseYears]
    holds and the double
    [firstPhaseYears * firstPhaseValue + (petAge - firstPhaseYears) * laterPerYear]
    when it does not.  Nothing is rounded further or clamped: for a
    non-positive [petAge] (and non-negative [firstPhaseYears] and
    [firstPhaseValue]) the result is the product
    [petAge * firstPhaseValue], which is never positive, and is zero or
    negative unless it is NaN (an infinite age times a zero rate). *)
Theorem calculateHumanAge_piecewise sp br petAge data entry :
  JS.Array_find (is_entry sp br) data = Some entry ->
  ((petAge <=? firstPhaseYears entry) = true ->
     calculateHumanAge sp br petAge data = Some (petAge * firstPhaseValue entry))
  /\ ((petAge <=? firstPhaseYears entry) = false ->
     calculateHumanAge sp br petAge data =
       Some (firstPhaseYears entry * firstPhaseValue entry
             + (petAge - firstPhaseYears entry) * laterPerYear entry))
  /\ ((petAge <=? 0) = true ->
      (0 <=? firstPhaseYears entry) = true -> (0 <=? firstPhaseValue entry) = true ->
      exists h, calculateHumanAge sp br petAge data = Some h
                /\ h = petAge * firstPhaseValue entry
                /\ (0 <? h) = false
                /\ (is_nan h = false -> (h <=? 0) = true)).
Proof.
  intros Hfind. rewrite (calculateHumanAge_found _ _ _ _ _ Hfind).
  split; [|split].
  - intros Hle. by rewrite humanAgeOf_first_phase.
  - intros Hgt. by rewrite humanAgeOf_second_phase.
  - intros Hneg Hy Hv. eexists. split; [reflexivity|].
    rewrite humanAgeOf_first_phase by by apply nonpos_leb_nonneg.
    split; [done|]. by apply nonpos_mul_nonneg.
Qed.

Lemma calculateHumanAge_piecewise_witness :
  calculateHumanAge "Dog" "Labrador" 1 [labrador] = Some (1 * 10.5)
  /\ calculateHumanAge "Dog" "Labrador" 5 [labrador] = Some (2 * 10.5 + (5 - 2) * 4)
  /\ (exists h, calculateHumanAge "Dog" "Labrador" (-1) [labrador] = Some h
                /\ h = (-1) * 10.5
                /\ (0 <? h) = false
                /\ (is_nan h = false -> (h <=? 0) = true))
  /\ calculateHumanAge "Dog" "Labrador" (-1) [labrador] = Some (-10.5)
  /\ calculateHumanAge "Dog" "Labrador" 0 [labrador] = Some 0.
Proof.
  assert (Hfind : JS.Array_find (is_entry "Dog" "Labrador") [labrador] = Some labrador)
    by reflexivity.
  split; [|split; [|split; [|split]]].
  - apply (calculateHumanAge_piecewise "Dog" "Labrador" 1 [labrador] labrador Hfind).
    reflexivity.
  - apply (calculateHumanAge_piecewise "Dog" "Labrador" 5 [labrador] labrador Hfind).
    reflexivity.
  - apply (calculateHumanAge_piecewise "Dog" "Labrador" (-1) [labrador] labrador Hfind);
      reflexivity.
  - reflexivity.
  - reflexivity.
Defined.

(** C2. When no record carries both the queried species and the queried
    breed (compared exactly, letter case included) the result is [null].
    The function is total: its result is a number or [null], and run over
    the store on a reference to an array of records it does not raise. *)
Theorem calculateHumanAge_not_found sp br petAge data :
  (Forall (fun r => ~ (species r = sp /\ breed r = br)) data ->
     calculateHumanAge sp br petAge data = None)
  /\ (calculateHumanAge sp br petAge data = None
      \/ exists n, calculateHumanAge sp br petAge data = Some n)
  /\ (forall (h : Store.heap) (d : Store.loc),
        h !! d = Some (Store.DataArray data) ->
        exists result : option float,
          Store.calculateHumanAge sp br petAge d h = Some (result, h)).
Proof.
  split; [|split].
  - intros Hno. unfold calculateHumanAge.
    assert (JS.Array_find (is_entry sp br) data = None) as ->; [|done].
    apply Array_find_None, no_entry_Forall, Hno.
  - destruct (calculateHumanAge sp br petAge data) as [n|]; [right; by exists n | by left].
  - intros h d Hd.
    unfold Store.calculateHumanAge, Store.Array_find, Store.bind, Store.read_data.
    rewrite Hd. simpl.
    destruct (JS.Array_find (is_entry sp br) data); by eexists.
Qed.

Lemma calculateHumanAge_not_found_witness :
  calculateHumanAge "dog" "Labrador" 3 [labrador] = None
  /\ calculateHumanAge "Dog" "Siamese" 3 [labrador] = None.
Proof.
  split.
  - apply (calculateHumanAge_not_found "dog" "Labrador" 3 [labrador]).
    repeat constructor. vm_compute. intros [H _]. discriminate H.
  - apply (calculateHumanAge_not_found "Dog" "Siamese" 3 [labrador]).
    repeat constructor. vm_compute. intros [_ H]. discriminate H.
Defined.

(** C7. With several records for one (species, breed) pair the result is
    computed from the first of them in dataset order, whatever follows
    it. *)
Theorem calculateHumanAge_first_match sp br petAge before entry after :
  matches sp br entry ->
  Forall (fun r => ~ matches sp br r) before ->
  calculateHumanAge sp br petAge (before ++ entry :: after)
  = Some (humanAgeOf entry petAge).
Proof.
  intros Hm Hb. apply calculateHumanAge_found, Array_find_first.
  - by apply is_entry_true.
  - by apply no_entry_Forall.
Qed.

Lemma calculateHumanAge_first_match_witness :
  calculateHumanAge "Dog" "Labrador" 3 ([siamese] ++ labrador :: [labrador_again; labrador])
  = Some (humanAgeOf labrador 3).
Proof.
  apply (calculateHumanAge_first_match "Dog" "Labrador" 3 [siamese] labrador
           [labrador_again; labrador]).
  - split; reflexivity.
  - repeat constructor. intros [H _]. discriminate H.
Defined.

(** ** Sets in insertion order *)

Lemma Set_has_true (s : list string) v : JS.Set_has s v = true <-> v ∈ s.
Proof.
  unfold JS.Set_has. rewrite existsb_exists. split.
  - intros (x & Hx & ->%String.eqb_eq). by apply list_elem_of_In.
  - intros Hv. exists v. split; [by apply list_elem_of_In | apply String.eqb_refl].
Qed.

Lemma Set_add_old (s : list string) v : v ∈ s -> JS.Set_add s v = s.
Proof. intros Hv. unfold JS.Set_add. apply Set_has_true in Hv. by rewrite Hv. Qed.

Lemma Set_add_new (s : list string) v : v ∉ s -> JS.Set_add s v = s ++ [v].
Proof.
  intros Hv. unfold JS.Set_add.
  destruct (JS.Set_has s v) eqn:E; [|done]. by apply Set_has_true in E.
Qed.

Lemma Set_new_snoc l v : JS.Set_new (l ++ [v]) = JS.Set_add (JS.Set_new l) v.
Proof. unfold JS.Set_new. by rewrite fold_left_app. Qed.

Lemma Set_new_elem_of l v : v ∈ JS.Set_new l <-> v ∈ l.
Proof.
  induction l as [|x l IH] using rev_ind.
  - done.
  - rewrite Set_new_snoc, elem_of_app, list_elem_of_singleton, <- IH.
    destruct (decide (x ∈ JS.Set_new l)) as [Hx|Hx].
    + rewrite (Set_add_old _ _ Hx). split; [by left|]. intros [Hv| ->]; done.
    + rewrite (Set_add_new _ _ Hx), elem_of_app, list_elem_of_singleton. done.
Qed.

Lemma Set_new_NoDup l : NoDup (JS.Set_new l).
Proof.
  induction l as [|x l IH] using rev_ind.
  - constructor.
  - rewrite Set_new_snoc.
    destruct (decide (x ∈ JS.Set_new l)) as [Hx|Hx].
    + by rewrite (Set_add_old _ _ Hx).
    + rewrite (Set_add_new _ _ Hx). apply NoDup_app. repeat split; [done| |apply NoDup_singleton].
      intros y Hy ->%list_elem_of_singleton. done.
Qed.

(** ** First occurrences *)

Lemma first_index_lt s l p : first_index s l = Some p -> (p < length l)%nat.
Proof.
  revert p. induction l as [|x l IH]; simpl; intros p; [done|].
  destruct (String.eqb x s).
  - intros [= <-]. lia.
  - destruct (first_index s l) as [q|]; simpl; [|done].
    intros [= <-]. specialize (IH q eq_refl). lia.
Qed.

Lemma first_index_elem_of s l : s ∈ l -> exists p, first_index s l = Some p.
Proof.
  induction l as [|x l IH]; simpl.
  - by intros ?%elem_of_nil.
  - intros Hs. destruct (String.eqb x s) eqn:E; [by exists 0%nat|].
    apply elem_of_cons in Hs as [->|Hs].
    + by rewrite String.eqb_refl in E.
    + destruct (IH Hs) as [p ->]. by exists (S p).
Qed.

Lemma first_index_None s l : s ∉ l -> first_index s l = None.
Proof.
  intros Hs. destruct (first_index s l) as [p|] eqn:E; [|done].
  exfalso. apply Hs. clear Hs. revert p E.
  induction l as [|x l IH]; simpl; intros p; [done|].
  destruct (String.eqb x s) eqn:Hx.
  - apply String.eqb_eq in Hx as ->. intros _. apply elem_of_cons. by left.
  - destruct (first_index s l) as [q|]; simpl; [|done].
    intros _. apply elem_of_cons. right. by apply (IH q).
Qed.

Lemma first_index_app_l s l l' p :
  first_index s l = Some p -> first_index s (l ++ l') = Some p.
Proof.
  revert p. induction l as [|x l IH]; simpl; intros p; [done|].
  destruct (String.eqb x s); [done|].
  destruct (first_index s l) as [q|]; simpl; [|done].
  intros [= <-]. by rewrite (IH q).
Qed.

Lemma first_index_snoc_new s l : s ∉ l -> first_index s (l ++ [s]) = Some (length l).
Proof.
  induction l as [|x l IH]; simpl.
  - intros _. by rewrite String.eqb_refl.
  - intros Hs. apply not_elem_of_cons in Hs as [Hne Hs].
    destruct (String.eqb x s) eqn:E.
    + apply String.eqb_eq in E. congruence.
    + by rewrite (IH Hs).
Qed.

(** [first_index] is what its name says: the position holds [s] and no
    earlier one does. *)
Lemma first_index_spec s l p :
  first_index s l = Some p
  <-> l !! p = Some s /\ forall k, (k < p)%nat -> l !! k <> Some s.
Proof.
  revert p. induction l as [|x l IH]; intros p; simpl.
  - split; [done|]. by intros [? _].
  - destruct (String.eqb x s) eqn:E.
    + apply String.eqb_eq in E as ->. split.
      * intros [= <-]. split; [done|]. intros k Hk. lia.
      * intros [Hp Hfirst]. destruct p as [|p]; [done|].
        exfalso. apply (Hfirst 0%nat); [lia|done].
    + assert (x <> s) as Hne by (intros ->; by rewrite String.eqb_refl in E).
      destruct p as [|p].
      * split.
        -- destruct (first_index s l); simpl; done.
        -- intros [Hp _]. simpl in Hp. congruence.
      * specialize (IH p). simpl. split.
        -- destruct (first_index s l) as [q|] eqn:Hq; simpl; [|done].
           intros [= ->]. destruct IH as [[IH1 IH2] _]; [done|].
           split; [done|]. intros [|k] Hk; simpl; [congruence|]. apply IH2. lia.
        -- intros [Hp Hfirst]. destruct IH as [_ IH].
           rewrite IH; [done|].
           split; [done|]. intros k Hk. apply (Hfirst (S k)). lia.
Qed.

Lemma Set_new_first_occurrence_order l (i j : nat) s t :
  JS.Set_new l !! i = Some s -> JS.Set_new l !! j = Some t -> (i < j)%nat ->
  exists p q, first_index s l = Some p /\ first_index t l = Some q /\ (p < q)%nat.
Proof.
  revert i j s t. induction l as [|x l IH] using rev_ind; intros i j s t.
  - done.
  - rewrite Set_new_snoc.
    destruct (decide (x ∈ JS.Set_new l)) as [Hx|Hx].
    + rewrite (Set_add_old _ _ Hx). intros Hi Hj Hij.
      destruct (IH i j s t Hi Hj Hij) as (p & q & Hp & Hq & Hpq).
      exists p, q. repeat split; [by apply first_index_app_l..|done].
    + rewrite (Set_add_new _ _ Hx). intros Hi Hj Hij.
      assert (j < length (JS.Set_new l ++ [x]))%nat as Hlen by by eapply lookup_lt_Some.
      rewrite length_app in Hlen. simpl in Hlen.
      rewrite lookup_app_l in Hi by lia.
      destruct (decide (j < length (JS.Set_new l))%nat) as [Hlt|Hge].
      * rewrite lookup_app_l in Hj by lia.
        destruct (IH i j s t Hi Hj Hij) as (p & q & Hp & Hq & Hpq).
        exists p, q. repeat split; [by apply first_index_app_l..|done].
      * rewrite lookup_app_r in Hj by lia.
        replace (j - length (JS.Set_new l))%nat with 0%nat in Hj by lia.
        injection Hj as <-.
        assert (s ∈ l) as Hs.
        { apply Set_new_elem_of. by eapply list_elem_of_lookup_2. }
        destruct (first_index_elem_of _ _ Hs) as [p Hp].
        exists p, (length l). repeat split.
        -- by apply first_index_app_l.
        -- apply first_index_snoc_new. by rewrite <- Set_new_elem_of.
        -- by eapply first_index_lt.
Qed.

(** ** The enumerators *)

Lemma species_eqb_decide (item : PetAgeData) sp :
  String.eqb (species item) sp = bool_decide (species item = sp).
Proof.
  destruct (String.eqb_spec (species item) sp) as [H|H].
  - by rewrite bool_decide_eq_true_2.
  - by rewrite bool_decide_eq_false_2.
Qed.

Lemma getBreedsBySpecies_cons sp item data :
  getBreedsBySpecies sp (item :: data) =
    if decide (species item = sp) then breed item :: getBreedsBySpecies sp data
    else getBreedsBySpecies sp data.
Proof.
  unfold getBreedsBySpecies. simpl. rewrite species_eqb_decide.
  destruct (decide (species item = sp)) as [H|H].
  - by rewrite bool_decide_eq_true_2.
  - by rewrite bool_decide_eq_false_2.
Qed.

Lemma getBreedsBySpecies_app sp d1 d2 :
  getBreedsBySpecies sp (d1 ++ d2) = getBreedsBySpecies sp d1 ++ getBreedsBySpecies sp d2.
Proof.
  induction d1 as [|item d1 IH]; [done|].
  rewrite <- app_comm_cons, !getBreedsBySpecies_cons, IH.
  by destruct (decide (species item = sp)).
Qed.

Lemma getBreedsBySpecies_elem_of sp b data :
  b ∈ getBreedsBySpecies sp data
  <-> exists r, r ∈ data /\ species r = sp /\ breed r = b.
Proof.
  induction data as [|item data IH].
  - split; [by intros ?%elem_of_nil|]. by intros (r & ?%elem_of_nil & _).
  - rewrite getBreedsBySpecies_cons. destruct (decide (species item = sp)) as [Hs|Hs].
    + rewrite elem_of_cons, IH. split.
      * intros [->|(r & Hr & Hrs & Hrb)].
        -- exists item. split; [apply elem_of_cons; by left|done].
        -- exists r. split; [apply elem_of_cons; by right|done].
      * intros (r & [->|Hr]%elem_of_cons & Hrs & Hrb); [by left|].
        right. by exists r.
    + rewrite IH. split.
      * intros (r & Hr & Hrs & Hrb). exists r. split; [apply elem_of_cons; by right|done].
      * intros (r & [->|Hr]%elem_of_cons & Hrs & Hrb); [done|]. by exists r.
Qed.

Lemma getBreedsBySpecies_length sp data :
  length (getBreedsBySpecies sp data) = count_species sp data.
Proof.
  induction data as [|item data IH]; [done|].
  rewrite getBreedsBySpecies_cons. simpl.
  destruct (decide (species item = sp)); simpl; by rewrite IH.
Qed.

Lemma getBreedsBySpecies_nil_iff sp data :
  getBreedsBySpecies sp data = [] <-> Forall (fun r => species r <> sp) data.
Proof.
  induction data as [|item data IH].
  - split; [constructor|done].
  - rewrite getBreedsBySpecies_cons, Forall_cons.
    destruct (decide (species item = sp)) as [Hs|Hs].
    + split; [done|]. by intros [? _].
    + rewrite IH. split; [by intros H; split | by intros [_ H]].
Qed.

Lemma getUniqueSpecies_elem_of s data :
  s ∈ getUniqueSpecies data <-> exists r, r ∈ data /\ species r = s.
Proof.
  unfold getUniqueSpecies, JS.spread.
  rewrite Set_new_elem_of, Array_map_map, list_elem_of_In, in_map_iff.
  split; intros (r & H1 & H2); exists r; split; try done; by apply list_elem_of_In.
Qed.

(** C3. The result of [getUniqueSpecies] holds exactly the species of the
    records of the dataset, each once, and in the order in which they
    first occur in the dataset. *)
Theorem getUniqueSpecies_first_occurrences data :
  (forall s, s ∈ getUniqueSpecies data <-> exists r, r ∈ data /\ species r = s)
  /\ NoDup (getUniqueSpecies data)
  /\ (forall (i j : nat) s t,
        getUniqueSpecies data !! i = Some s ->
        getUniqueSpecies data !! j = Some t ->
        (i < j)%nat ->
        exists p q,
          first_index s (List.map species data) = Some p
          /\ first_index t (List.map species data) = Some q
          /\ (p < q)%nat).
Proof.
  split; [|split].
  - intros s. apply getUniqueSpecies_elem_of.
  - apply Set_new_NoDup.
  - intros i j s t. unfold getUniqueSpecies, JS.spread. rewrite Array_map_map.
    apply Set_new_first_occurrence_order.
Qed.

Lemma getUniqueSpecies_first_occurrences_witness :
  getUniqueSpecies [labrador; siamese; poodle; siamese] = ["Dog"; "Cat"]%string
  /\ exists p q,
       first_index "Dog" (List.map species [labrador; siamese; poodle; siamese]) = Some p
       /\ first_index "Cat" (List.map species [labrador; siamese; poodle; siamese]) = Some q
       /\ (p < q)%nat.
Proof.
  split; [reflexivity|].
  apply (getUniqueSpecies_first_occurrences [labrador; siamese; poodle; siamese])
    with (i := 0%nat) (j := 1%nat); [reflexivity | reflexivity | lia].
Defined.

(** C4. [getBreedsBySpecies] yields the breed of every record of the
    queried species and of no other record, in dataset order and with
    repetitions kept: it is the library filter followed by the library
    map, it distributes over concatenation of datasets, a single record
    gives one breed or none, there are as many breeds as records of the
    species, and a species without record gives the empty array. *)
Theorem getBreedsBySpecies_filter_in_order sp :
  (forall data,
     getBreedsBySpecies sp data = breed <$> filter (fun r => species r = sp) data)
  /\ (forall r,
        getBreedsBySpecies sp [r] = if decide (species r = sp) then [breed r] else [])
  /\ (forall d1 d2,
        getBreedsBySpecies sp (d1 ++ d2)
        = getBreedsBySpecies sp d1 ++ getBreedsBySpecies sp d2)
  /\ (forall data, length (getBreedsBySpecies sp data) = count_species sp data)
  /\ (forall data,
        Forall (fun r => species r <> sp) data -> getBreedsBySpecies sp data = []).
Proof.
  repeat split.
  - intros data. induction data as [|item data IH]; [done|].
    rewrite getBreedsBySpecies_cons, filter_cons, IH.
    by destruct (decide (species item = sp)).
  - intros r. apply getBreedsBySpecies_cons.
  - apply getBreedsBySpecies_app.
  - apply getBreedsBySpecies_length.
  - intros data. apply getBreedsBySpecies_nil_iff.
Qed.

Lemma getBreedsBySpecies_filter_in_order_witness :
  getBreedsBySpecies "Dog" [poodle; siamese; labrador; labrador_again]
  = ["Poodle"; "Labrador"; "Labrador"]%string
  /\ getBreedsBySpecies "Bird" [poodle; siamese; labrador] = [].
Proof.
  split; [reflexivity|].
  apply (getBreedsBySpecies_filter_in_order "Bird").
  repeat constructor; intros H; discriminate H.
Defined.

(** C9. [calculateHumanAge] answers [null] exactly for the breeds that
    [getBreedsBySpecies] does not list for the species; every breed it
    lists converts to a number. *)
Theorem calculateHumanAge_null_iff_breed_not_listed sp br petAge data :
  (calculateHumanAge sp br petAge data = None <-> br ∉ getBreedsBySpecies sp data)
  /\ (br ∈ getBreedsBySpecies sp data ->
      exists n, calculateHumanAge sp br petAge data = Some n).
Proof.
  assert (calculateHumanAge sp br petAge data = None
          <-> br ∉ getBreedsBySpecies sp data) as Hiff.
  { rewrite getBreedsBySpecies_elem_of. unfold calculateHumanAge.
    destruct (JS.Array_find (is_entry sp br) data) as [entry|] eqn:Hfind.
    - split; [done|]. intros Hno. exfalso. apply Hno.
      apply Array_find_Some in Hfind as (before & after & -> & Hm%is_entry_true & _).
      exists entry. split; [|exact Hm].
      apply elem_of_app. right. apply elem_of_cons. by left.
    - split; [|done]. intros _ (r & Hr & Hm).
      apply Array_find_None in Hfind. rewrite Forall_forall in Hfind.
      specialize (Hfind r Hr). apply is_entry_false in Hfind. by apply Hfind. }
  split; [exact Hiff|].
  intros Hin. destruct (calculateHumanAge sp br petAge data) as [n|] eqn:E; [by exists n|].
  by apply Hiff in Hin.
Qed.

Lemma calculateHumanAge_null_iff_breed_not_listed_witness :
  exists n, calculateHumanAge "Dog" "Poodle" 4 [labrador; siamese; poodle] = Some n.
Proof.
  apply (calculateHumanAge_null_iff_breed_not_listed "Dog" "Poodle" 4
           [labrador; siamese; poodle]).
  vm_compute. apply list_elem_of_In. simpl. right. left. reflexivity.
Defined.

(** C10. [getBreedsBySpecies] is non-empty exactly for the species that
    [getUniqueSpecies] lists: a listed species has a breed, and a species
    that is not listed gets the empty array. *)
Theorem breeds_nonempty_iff_species_listed s data :
  (getBreedsBySpecies s data <> [] <-> s ∈ getUniqueSpecies data)
  /\ (s ∈ getUniqueSpecies data -> exists b, b ∈ getBreedsBySpecies s data)
  /\ (s ∉ getUniqueSpecies data -> getBreedsBySpecies s data = []).
Proof.
  assert (s ∈ getUniqueSpecies data -> exists b, b ∈ getBreedsBySpecies s data) as Hlisted.
  { intros (r & Hr & Hs)%getUniqueSpecies_elem_of.
    exists (breed r). apply getBreedsBySpecies_elem_of. by exists r. }
  assert (s ∉ getUniqueSpecies data -> getBreedsBySpecies s data = []) as Hnot.
  { intros Hno. apply getBreedsBySpecies_nil_iff, Forall_forall.
    intros r Hr Hs. apply Hno, getUniqueSpecies_elem_of. by exists r. }
  split; [|by split].
  split.
  - intros Hne. destruct (decide (s ∈ getUniqueSpecies data)) as [|Hno]; [done|].
    by apply Hnot in Hno.
  - intros [b Hb]%Hlisted Hnil. rewrite Hnil in Hb. by apply elem_of_nil in Hb.
Qed.

Lemma breeds_nonempty_iff_species_listed_witness :
  (exists b, b ∈ getBreedsBySpecies "Cat" [labrador; siamese; poodle])
  /\ getBreedsBySpecies "Bird" [labrador; siamese; poodle] = [].
Proof.
  split.
  - apply (breeds_nonempty_iff_species_listed "Cat" [labrador; siamese; poodle]).
    vm_compute. apply list_elem_of_In. simpl. right. left. reflexivity.
  - apply (breeds_nonempty_iff_species_listed "Bird" [labrador; siamese; poodle]).
    vm_compute. intros H. apply list_elem_of_In in H. simpl in H.
    destruct H as [H|[H|H]]; [discriminate H | discriminate H | exact H].
Defined.

(** ** Monotonicity and the phase boundary *)

Lemma first_of_its_key_found item data :
  first_of_its_key item data ->
  JS.Array_find (is_entry (species item) (breed item)) data = Some item.
Proof.
  intros (before & after & -> & Hb). apply Array_find_first.
  - by apply is_entry_true.
  - by apply no_entry_Forall.
Qed.

Lemma unique_keys_first item data :
  unique_keys data -> item ∈ data -> first_of_its_key item data.
Proof.
  unfold unique_keys. intros Hnd Hin.
  apply list_elem_of_split in Hin as (before & after & ->).
  exists before, after. split; [done|].
  rewrite map_app in Hnd. simpl in Hnd.
  apply NoDup_app in Hnd as (_ & Hdisj & _).
  apply Forall_forall. intros r Hr [Hs Hbr].
  apply (Hdisj (key r)).
  - apply list_elem_of_In, in_map, list_elem_of_In, Hr.
  - unfold key. rewrite Hs, Hbr. apply elem_of_cons. by left.
Qed.

Lemma is_finite_cases x :
  is_finite x = true ->
  (exists s, Prim2SF x = S754_zero s) \/ (exists s m e, Prim2SF x = S754_finite s m e).
Proof.
  unfold is_finite, is_nan, is_infinity.
  rewrite !FloatAxioms.eqb_spec, abs_spec.
  replace (Prim2SF infinity) with (S754_infinity false) by reflexivity.
  destruct (Prim2SF x) as [s|[|]| |s m e]; simpl; try done; eauto.
Qed.

Lemma SFsub_diag X :
  (exists s, X = S754_zero s) \/ (exists s m e, X = S754_finite s m e) ->
  SFsub prec emax X X = S754_zero false.
Proof.
  intros [[s ->]|(s & m & e & ->)]; simpl.
  - by destruct s.
  - by rewrite Z.sub_diag.
Qed.

Lemma SFmul_finite_sign X Y :
  (exists s, X = S754_zero s) \/ (exists s m e, X = S754_finite s m e) ->
  (exists s, Y = S754_zero s) \/ (exists s m e, Y = S754_finite s m e) ->
  exists s, SF_sign_is s (SFmul prec emax X Y).
Proof.
  intros [[s ->]|(s & m & e & ->)] [[s' ->]|(s' & m' & e' & ->)]; simpl;
    try (by eexists).
  eexists. by apply binary_round_aux_sign.
Qed.

Lemma SFeqb_refl X s : SF_sign_is s X -> SFeqb X X = true.
Proof.
  intros Hs. unfold SFeqb. rewrite SFcompare_refl; [done|]. by intros ->.
Qed.

Lemma humanAgeOf_at_boundary entry :
  humanAgeOf entry (firstPhaseYears entry)
  = firstPhaseYears entry * firstPhaseValue entry.
Proof.
  destruct (firstPhaseYears entry <=? firstPhaseYears entry) eqn:Hle.
  - by apply humanAgeOf_first_phase.
  - rewrite (humanAgeOf_second_phase _ _ Hle). apply leb_refl_false in Hle.
    apply Prim2SF_inj.
    rewrite add_spec, !FloatAxioms.mul_spec, Hle. done.
Qed.

(** For finite fields the formula after the first phase, taken at the
    boundary, is the boundary value of the first phase: the difference
    [firstPhaseYears - firstPhaseYears] is zero, its product with a finite
    rate is zero, and adding zero changes no number. *)
Lemma laterPhaseAge_at_boundary entry :
  finite_fields entry ->
  (laterPhaseAge entry (firstPhaseYears entry)
   =? firstPhaseAge entry (firstPhaseYears entry)) = true.
Proof.
  intros (Hy%is_finite_cases & Hv%is_finite_cases & Hl%is_finite_cases).
  unfold laterPhaseAge, firstPhaseAge. cbv zeta.
  rewrite FloatAxioms.eqb_spec, add_spec, !FloatAxioms.mul_spec, sub_spec.
  unfold SF64add, SF64mul, SF64sub. rewrite (SFsub_diag _ Hy).
  destruct (SFmul_finite_sign _ _ Hy Hv) as [sp Hp].
  assert (exists st, SFmul prec emax (S754_zero false) (Prim2SF (laterPerYear entry))
                     = S754_zero st) as [st ->].
  { destruct Hl as [[s ->]|(s & m & e & ->)]; simpl; by eexists. }
  destruct (SFmul prec emax (Prim2SF (firstPhaseYears entry))
              (Prim2SF (firstPhaseValue entry))) as [s|s| |s m e] eqn:HP.
  - simpl. by destruct s, st.
  - simpl. by destruct s.
  - done.
  - simpl. by apply (SFeqb_refl _ s).
Qed.


(** For positive finite fields and a non-negative age the result is zero,
    a positive number or plus infinity, never NaN and never negative. *)
Lemma humanAgeOf_NN entry a :
  positive_fields entry -> finite_fields entry -> (0 <=? a) = true ->
  NN (Prim2SF (humanAgeOf entry a)).
Proof.
  intros (Hy & Hv & Hl) (Fy & Fv & Fl) Ha.
  destruct (positive_finite_shape _ Hy Fy) as (my & ey & HY).
  destruct (positive_finite_shape _ Hv Fv) as (mv & ev & HV).
  destruct (positive_finite_shape _ Hl Fl) as (ml & el & HL).
  pose proof (nonneg_NN a Ha) as NA.
  pose proof (Prim2SF_valid (firstPhaseYears entry)) as Vy.
  pose proof (Prim2SF_valid (firstPhaseValue entry)) as Vv.
  pose proof (Prim2SF_valid (laterPerYear entry)) as Vl.
  pose proof (Prim2SF_valid a) as Va.
  pose proof (Prim2SF_valid (firstPhaseYears entry * firstPhaseValue entry)) as Vp.
  pose proof (Prim2SF_valid (a - firstPhaseYears entry)) as Vd.
  pose proof (Prim2SF_valid ((a - firstPhaseYears entry) * laterPerYear entry)) as Vt.
  rewrite FloatAxioms.mul_spec in Vp. rewrite FloatAxioms.sub_spec in Vd.
  rewrite FloatAxioms.mul_spec, FloatAxioms.sub_spec in Vt.
  unfold SF64mul, SF64sub in *. rewrite HY, HV, HL in *.
  destruct (a <=? firstPhaseYears entry) eqn:Hle.
  - rewrite (humanAgeOf_first_phase _ _ Hle), FloatAxioms.mul_spec, HV.
    by apply SFmul_NN.
  - rewrite (humanAgeOf_second_phase _ _ Hle).
    rewrite FloatAxioms.leb_spec, HY in Hle.
    pose proof (not_leb_above my ey _ Vy Va NA Hle) as Habove.
    rewrite FloatAxioms.add_spec, !FloatAxioms.mul_spec, FloatAxioms.sub_spec.
    unfold SF64add, SF64mul, SF64sub. rewrite HY, HV, HL.
    apply SFadd_NN; [done|done| |].
    + by apply SFmul_NN.
    + apply SFmul_NN; [done..|]. by apply SFsub_NN.
Qed.

Lemma NN_nonneg x : NN (Prim2SF x) -> (0 <=? x) = true /\ is_nan x = false.
Proof.
  intros HN. unfold is_nan.
  rewrite FloatAxioms.leb_spec, FloatAxioms.eqb_spec, Prim2SF_zero.
  split; [by apply SFleb_zero_NN|].
  unfold SFeqb. rewrite SFcompare_refl; [done|]. by destruct (Prim2SF x).
Qed.




(** C6, the claim as it is written, fails for a record that stands behind
    another record of its (species, breed) pair: with [labrador] before
    [labrador_again], the boundary age 3 of [labrador_again] converts to
    25 through [labrador], not to 3 * 5. *)
Lemma boundary_value_not_for_later_duplicate :
  labrador_again ∈ [labrador; labrador_again]
  /\ calculateHumanAge "Dog" "Labrador" 3 [labrador; labrador_again] = Some 25
  /\ firstPhaseYears labrador_again * firstPhaseValue labrador_again = 15
  /\ (25 =? 15) = false
  /\ ~ (forall data item, item ∈ data -> boundary_value item data).
Proof.
  assert (labrador_again ∈ [labrador; labrador_again]) as Hin.
  { apply elem_of_cons. right. apply elem_of_cons. by left. }
  split; [exact Hin|]. repeat split.
  intros Hclaim.
  destruct (Hclaim [labrador; labrador_again] labrador_again Hin) as (h & Hh & Heq).
  vm_compute in Hh. injection Hh as <-. vm_compute in Heq.
  assert ((25 =? 15) = (15 =? 15)) as Habs by by rewrite Heq.
  vm_compute in Habs. discriminate Habs.
Qed.

(** C6, amended. For a record that is the first of the dataset with its
    (species, breed) pair, and so for every record of a dataset in which
    no two records share a pair, the conversion of the age
    [firstPhaseYears] is the double [firstPhaseYears * firstPhaseValue];
    and for every record with finite fields the formula after the first
    phase, taken at [petAge = firstPhaseYears], gives a number equal to
    the one of the first-phase formula, which is the result there. *)
Theorem calculateHumanAge_boundary data item :
  (first_of_its_key item data ->
     calculateHumanAge (species item) (breed item) (firstPhaseYears item) data
     = Some (firstPhaseYears item * firstPhaseValue item))
  /\ (unique_keys data -> item ∈ data -> boundary_value item data)
  /\ (finite_fields item ->
      (laterPhaseAge item (firstPhaseYears item)
       =? firstPhaseAge item (firstPhaseYears item)) = true
      /\ (laterPhaseAge item (firstPhaseYears item)
          =? humanAgeOf item (firstPhaseYears item)) = true).
Proof.
  assert (first_of_its_key item data ->
          calculateHumanAge (species item) (breed item) (firstPhaseYears item) data
          = Some (firstPhaseYears item * firstPhaseValue item)) as Hfirst.
  { intros Hfound%first_of_its_key_found.
    rewrite (calculateHumanAge_found _ _ _ _ _ Hfound).
    by rewrite humanAgeOf_at_boundary. }
  split; [exact Hfirst|]. split.
  - intros Hu Hin. eexists. split; [by apply Hfirst, unique_keys_first|reflexivity].
  - intros Hfin. pose proof (laterPhaseAge_at_boundary item Hfin) as Hsame.
    split; [exact Hsame|].
    rewrite humanAgeOf_at_boundary. exact Hsame.
Qed.

Lemma calculateHumanAge_boundary_witness :
  calculateHumanAge "Dog" "Labrador" 2 [siamese; labrador; labrador_again]
  = Some (2 * 10.5)
  /\ (laterPhaseAge labrador 2 =? humanAgeOf labrador 2) = true.
Proof.
  split.
  - refine (proj1 (calculateHumanAge_boundary
                     [siamese; labrador; labrador_again] labrador) _).
    exists [siamese], [labrador_again]. split; [reflexivity|].
    repeat constructor. intros [H _]. discriminate H.
  - refine (proj2 (proj2 (proj2 (calculateHumanAge_boundary
                     [siamese; labrador; labrador_again] labrador)) _)).
    repeat split.
Defined.

(** ** The functions over the store *)

Section StoreRuns.
Implicit Types (h : Store.heap) (d : Store.loc).

Lemma run_calculateHumanAge h d data sp br petAge :
  h !! d = Some (Store.DataArray data) ->
  Store.calculateHumanAge sp br petAge d h
  = Some (calculateHumanAge sp br petAge data, h).
Proof.
  intros Hd.
  unfold Store.calculateHumanAge, Store.Array_find, Store.bind, Store.read_data, calculateHumanAge.
  rewrite Hd. simpl. by destruct (JS.Array_find (is_entry sp br) data).
Qed.

Lemma run_Set_add h (s : Store.loc) members v :
  h !! s = Some (Store.SetObject members) ->
  Store.Set_add s v h
  = Some (tt, <[s := Store.SetObject (JS.Set_add members v)]> h).
Proof.
  intros Hs. unfold Store.Set_add, Store.bind, Store.read_set.
  rewrite Hs. unfold Store.write. by rewrite Hs.
Qed.

Lemma run_for_each_Set_add items : forall h (s : Store.loc) members,
  h !! s = Some (Store.SetObject members) ->
  Store.for_each items (Store.Set_add s) h
  = Some (tt, <[s := Store.SetObject (fold_left JS.Set_add items members)]> h).
Proof.
  induction items as [|v items IH]; intros h s members Hs.
  - cbn [Store.for_each fold_left]. unfold Store.ret. by rewrite list_insert_id.
  - cbn [Store.for_each fold_left]. unfold Store.bind.
    rewrite (run_Set_add _ _ _ _ Hs).
    assert (s < length h)%nat as Hlt by by eapply lookup_lt_Some.
    rewrite (IH _ s (JS.Set_add members v)) by by apply list_lookup_insert_eq.
    by rewrite list_insert_insert_eq.
Qed.

Lemma run_getUniqueSpecies h d data :
  h !! d = Some (Store.DataArray data) ->
  Store.getUniqueSpecies d h
  = Some (S (S (length h)),
          h ++ [Store.StrArray (JS.Array_map species data);
                Store.SetObject (JS.Set_new (JS.Array_map species data));
                Store.StrArray (getUniqueSpecies data)]).
Proof.
  intros Hd.
  unfold Store.getUniqueSpecies, Store.Array_map, Store.Set_new, Store.spread.
  unfold Store.bind at 1 2. unfold Store.read_data. rewrite Hd. unfold Store.alloc at 1.
  set (mapped := JS.Array_map species data).
  unfold Store.bind at 1 2. unfold Store.read_strings.
  rewrite lookup_app_r, Nat.sub_diag by lia. simpl.
  unfold Store.bind at 1. unfold Store.alloc at 1.
  set (h1 := (h ++ [Store.StrArray mapped]) ++ [Store.SetObject []]).
  assert (h1 !! length (h ++ [Store.StrArray mapped]) = Some (Store.SetObject [])) as Hset.
  { unfold h1. by rewrite lookup_app_r, Nat.sub_diag by lia. }
  unfold Store.bind at 1. rewrite (run_for_each_Set_add _ _ _ _ Hset).
  unfold Store.ret, Store.bind, Store.read_set, Store.alloc.
  rewrite list_lookup_insert_eq by (by eapply lookup_lt_Some).
  unfold h1. rewrite insert_app_r_alt, Nat.sub_diag by lia. simpl.
  rewrite !length_app. simpl. rewrite <- !app_assoc. simpl.
  do 3 f_equal. lia.
Qed.

Lemma run_getBreedsBySpecies h d data sp :
  h !! d = Some (Store.DataArray data) ->
  Store.getBreedsBySpecies sp d h
  = Some (S (length h),
          h ++ [Store.DataArray (JS.Array_filter (fun item => String.eqb (species item) sp) data);
                Store.StrArray (getBreedsBySpecies sp data)]).
Proof.
  intros Hd.
  unfold Store.getBreedsBySpecies, Store.Array_filter, Store.Array_map.
  unfold Store.bind, Store.read_data, Store.alloc. rewrite Hd.
  rewrite lookup_app_r, Nat.sub_diag by lia. simpl.
  rewrite length_app. simpl. rewrite <- app_assoc. simpl.
  do 3 f_equal. lia.
Qed.

Lemma strings_at_fresh h fresh (k : nat) :
  Store.strings_at (h ++ fresh) (length h + k) = Store.strings_at fresh k.
Proof.
  unfold Store.strings_at.
  rewrite lookup_app_r by lia.
  by replace (length h + k - length h)%nat with k by lia.
Qed.

End StoreRuns.

(** C8. Run on a store that holds the dataset, each of the three functions
    returns what the function of the arguments and of the records says,
    twice in a row with the same outcome, and leaves a store that is the
    one it was given followed by objects of its own: nothing that existed
    before the call is changed, the dataset included. *)
Theorem core_functions_pure (h : Store.heap) (d : Store.loc) data sp br petAge :
  h !! d = Some (Store.DataArray data) ->
  Store.twice (Store.calculateHumanAge sp br petAge d) h
  = Some ((calculateHumanAge sp br petAge data, calculateHumanAge sp br petAge data), h)
  /\ (exists r1 r2 fresh,
        Store.twice (Store.getUniqueSpecies d) h = Some ((r1, r2), h ++ fresh)
        /\ Store.strings_at (h ++ fresh) r1 = Some (getUniqueSpecies data)
        /\ Store.strings_at (h ++ fresh) r2 = Some (getUniqueSpecies data)
        /\ (h ++ fresh) !! d = Some (Store.DataArray data))
  /\ (exists r1 r2 fresh,
        Store.twice (Store.getBreedsBySpecies sp d) h = Some ((r1, r2), h ++ fresh)
        /\ Store.strings_at (h ++ fresh) r1 = Some (getBreedsBySpecies sp data)
        /\ Store.strings_at (h ++ fresh) r2 = Some (getBreedsBySpecies sp data)
        /\ (h ++ fresh) !! d = Some (Store.DataArray data)).
Proof.
  intros Hd.
  assert (forall fresh, (h ++ fresh) !! d = Some (Store.DataArray data)) as Hkeep.
  { intros fresh. rewrite lookup_app_l; [done|]. by eapply lookup_lt_Some. }
  split; [|split].
  - unfold Store.twice, Store.bind.
    by rewrite (run_calculateHumanAge _ _ _ _ _ _ Hd), (run_calculateHumanAge _ _ _ _ _ _ Hd).
  - unfold Store.twice, Store.bind.
    rewrite (run_getUniqueSpecies _ _ _ Hd), (run_getUniqueSpecies _ _ _ (Hkeep _)).
    unfold Store.ret. rewrite <- app_assoc. eexists _, _, _. split; [reflexivity|].
    split; [|split]; [| |apply Hkeep].
    + replace (S (S (length h))) with (length h + 2)%nat by lia.
      by rewrite strings_at_fresh.
    + rewrite length_app. simpl.
      replace (S (S (length h + 3))) with (length h + 5)%nat by lia.
      by rewrite strings_at_fresh.
  - unfold Store.twice, Store.bind.
    rewrite (run_getBreedsBySpecies _ _ _ _ Hd), (run_getBreedsBySpecies _ _ _ _ (Hkeep _)).
    unfold Store.ret. rewrite <- app_assoc. eexists _, _, _. split; [reflexivity|].
    split; [|split]; [| |apply Hkeep].
    + replace (S (length h)) with (length h + 1)%nat by lia.
      by rewrite strings_at_fresh.
    + rewrite length_app. simpl.
      replace (S (length h + 2)) with (length h + 3)%nat by lia.
      by rewrite strings_at_fresh.
Qed.

Lemma core_functions_pure_witness :
  Store.twice (Store.calculateHumanAge "Dog" "Labrador" 5 0%nat)
    [Store.DataArray [labrador; siamese]]
  = Some ((calculateHumanAge "Dog" "Labrador" 5 [labrador; siamese],
           calculateHumanAge "Dog" "Labrador" 5 [labrador; siamese]),
          [Store.DataArray [labrador; siamese]]).
Proof.
  refine (proj1 (core_functions_pure [Store.DataArray [labrador; siamese]] 0%nat
                   [labrador; siamese] "Dog" "Labrador" 5 _)).
  reflexivity.
Defined.


(** * Further properties of the three functions *)

(** ** Growing and reordering the dataset *)

Lemma Set_new_from acc l :
  fold_left JS.Set_add l acc
  = acc ++ List.filter (fun s => negb (JS.Set_has acc s)) (JS.Set_new l).
Proof.
  induction l as [|x l IH] using rev_ind.
  - simpl. by rewrite app_nil_r.
  - rewrite fold_left_app, Set_new_snoc. simpl. rewrite IH.
    destruct (JS.Set_has acc x) eqn:Hacc.
    + assert (x ∈ acc) as Hx by by apply Set_has_true.
      rewrite Set_add_old by (apply elem_of_app; by left).
      destruct (decide (x ∈ JS.Set_new l)) as [Hl|Hl].
      * by rewrite (Set_add_old _ _ Hl).
      * rewrite (Set_add_new _ _ Hl), List.filter_app. simpl. rewrite Hacc. simpl.
        by rewrite app_nil_r.
    + assert (x ∉ acc) as Hx.
      { intros Hx%Set_has_true. congruence. }
      destruct (decide (x ∈ JS.Set_new l)) as [Hl|Hl].
      * rewrite (Set_add_old _ _ Hl). apply Set_add_old.
        apply elem_of_app. right. apply list_elem_of_In, filter_In.
        split; [by apply list_elem_of_In | by rewrite Hacc].
      * rewrite (Set_add_new _ _ Hl), List.filter_app. simpl. rewrite Hacc. simpl.
        rewrite app_assoc. apply Set_add_new.
        intros [Ha|Hf]%elem_of_app; [done|].
        apply list_elem_of_In, filter_In in Hf as [Hf _]. by apply list_elem_of_In in Hf.
Qed.

(** X1. Records appended to the dataset leave the species list of the
    records before them as it is and append the species that are new, in
    their own first-occurrence order. *)
Theorem getUniqueSpecies_app d1 d2 :
  getUniqueSpecies (d1 ++ d2)
  = getUniqueSpecies d1
    ++ List.filter (fun s => negb (JS.Set_has (getUniqueSpecies d1) s))
                   (getUniqueSpecies d2).
Proof.
  unfold getUniqueSpecies, JS.spread.
  rewrite !Array_map_map, map_app. unfold JS.Set_new at 1.
  rewrite fold_left_app. apply Set_new_from.
Qed.

Lemma Set_new_NoDup_id l : NoDup l -> JS.Set_new l = l.
Proof.
  induction l as [|x l IH] using rev_ind; [done|].
  intros Hnd. apply NoDup_app in Hnd as (Hl & Hdisj & _).
  rewrite Set_new_snoc, (IH Hl). apply Set_add_new.
  intros Hx. apply (Hdisj x Hx). apply elem_of_cons. by left.
Qed.

(** X2. When no species occurs in two records, the species list is the
    species column of the dataset; and in every case building a set from
    the species list again changes nothing. *)
Theorem getUniqueSpecies_of_distinct data :
  (NoDup (List.map species data) -> getUniqueSpecies data = List.map species data)
  /\ JS.spread (JS.Set_new (getUniqueSpecies data)) = getUniqueSpecies data.
Proof.
  split.
  - intros Hnd. unfold getUniqueSpecies, JS.spread. rewrite Array_map_map.
    by apply Set_new_NoDup_id.
  - unfold JS.spread at 1. apply Set_new_NoDup_id.
    unfold getUniqueSpecies, JS.spread. apply Set_new_NoDup.
Qed.

Lemma getUniqueSpecies_of_distinct_witness :
  getUniqueSpecies [labrador; siamese] = List.map species [labrador; siamese].
Proof.
  refine (proj1 (getUniqueSpecies_of_distinct [labrador; siamese]) _).
  apply NoDup_ListNoDup. repeat constructor; simpl.
  - intros [H|H]; [discriminate H | exact H].
  - intros H. exact H.
Defined.

Lemma indicator_sum_one (x : string) (l : list string) :
  NoDup l -> x ∈ l ->
  sum_list (List.map (fun s => if decide (x = s) then 1%nat else 0%nat) l) = 1%nat.
Proof.
  induction 1 as [|y l Hy Hnd IH]; [by intros ?%elem_of_nil|].
  intros Hx. simpl. destruct (decide (x = y)) as [->|Hne].
  - assert (sum_list (List.map (fun s => if decide (y = s) then 1%nat else 0%nat) l) = 0%nat)
      as ->; [|done].
    clear IH Hnd Hx. induction l as [|z l IH]; [done|].
    apply not_elem_of_cons in Hy as [Hne Hy]. simpl.
    destruct (decide (y = z)); [done|]. by apply IH.
  - apply elem_of_cons in Hx as [?|Hx]; [done|]. by rewrite IH.
Qed.

Lemma count_species_total (l : list string) data :
  NoDup l -> Forall (fun r => species r ∈ l) data ->
  sum_list (List.map (fun s => count_species s data) l) = length data.
Proof.
  intros Hnd. induction 1 as [|r data Hr _ IH]; simpl.
  - induction l as [|s l IHl]; [done|]. simpl. apply IHl. by apply NoDup_cons in Hnd as [_ ?].
  - rewrite <- IH, <- Nat.add_1_l, <- (indicator_sum_one (species r) l Hnd Hr).
    clear. induction l as [|s l IHl]; [done|]. simpl in *.
    destruct (decide (species r = s)); simpl; lia.
Qed.

(** X3. The species list splits the dataset: the breed lists of the
    listed species, taken together, have one entry for every record. *)
Theorem breeds_of_all_species_cover_dataset data :
  sum_list (List.map (fun s => length (getBreedsBySpecies s data)) (getUniqueSpecies data))
  = length data.
Proof.
  rewrite <- (count_species_total (getUniqueSpecies data) data).
  - f_equal. apply map_ext. intros s. apply getBreedsBySpecies_length.
  - apply Set_new_NoDup.
  - apply Forall_forall. intros r Hr. apply getUniqueSpecies_elem_of. by exists r.
Qed.

(** X4. The species list is at most as long as the dataset and is empty
    only for the empty dataset; a breed list is at most as long as the
    dataset. *)
Theorem enumerator_sizes data :
  (length (getUniqueSpecies data) <= length data)%nat
  /\ (getUniqueSpecies data = [] <-> data = [])
  /\ (forall sp, (length (getBreedsBySpecies sp data) <= length data)%nat).
Proof.
  split; [|split].
  - rewrite <- (length_map species data). apply NoDup_incl_length.
    + apply NoDup_ListNoDup, Set_new_NoDup.
    + intros s Hs. apply list_elem_of_In.
      apply list_elem_of_In, getUniqueSpecies_elem_of in Hs as (r & Hr & <-).
      apply list_elem_of_In, in_map, list_elem_of_In, Hr.
  - split; [|by intros ->].
    destruct data as [|r data]; [done|]. intros Hnil. exfalso.
    assert (species r ∈ getUniqueSpecies (r :: data)) as Hin.
    { apply getUniqueSpecies_elem_of. exists r. split; [apply elem_of_cons; by left|done]. }
    rewrite Hnil in Hin. by apply elem_of_nil in Hin.
  - intros sp. rewrite getBreedsBySpecies_length.
    induction data as [|r data IH]; simpl; [done|].
    destruct (decide (species r = sp)); lia.
Qed.

(** ** Datasets with one record per pair *)

Lemma unique_keys_found sp br data r :
  unique_keys data -> r ∈ data -> matches sp br r ->
  JS.Array_find (is_entry sp br) data = Some r.
Proof.
  intros Hu Hin [<- <-]. by apply first_of_its_key_found, unique_keys_first.
Qed.

(** X5. In a dataset with one record per (species, breed) pair the order
    of the records does not matter to the conversion: every reordering of
    the dataset gives the same result. *)
Theorem calculateHumanAge_order_irrelevant sp br petAge data data' :
  unique_keys data -> Permutation data data' ->
  calculateHumanAge sp br petAge data' = calculateHumanAge sp br petAge data.
Proof.
  intros Hu Hperm.
  assert (unique_keys data') as Hu'.
  { unfold unique_keys in *. apply NoDup_ListNoDup.
    eapply Permutation_NoDup; [|by apply NoDup_ListNoDup].
    by apply Permutation_map. }
  unfold calculateHumanAge.
  destruct (JS.Array_find (is_entry sp br) data) as [r|] eqn:Hfind.
  - apply Array_find_Some in Hfind as (before & after & Hdata & Hm%is_entry_true & _).
    assert (r ∈ data') as Hin.
    { rewrite <- Hperm, Hdata. apply elem_of_app. right. apply elem_of_cons. by left. }
    by rewrite (unique_keys_found sp br data' r Hu' Hin Hm).
  - apply Array_find_None in Hfind.
    assert (JS.Array_find (is_entry sp br) data' = None) as ->; [|done].
    apply Array_find_None. by rewrite <- Hperm.
Qed.

Lemma calculateHumanAge_order_irrelevant_witness :
  calculateHumanAge "Cat" "Siamese" 3 [poodle; siamese; labrador]
  = calculateHumanAge "Cat" "Siamese" 3 [labrador; siamese; poodle].
Proof.
  apply (calculateHumanAge_order_irrelevant "Cat" "Siamese" 3
           [labrador; siamese; poodle] [poodle; siamese; labrador]).
  - apply NoDup_ListNoDup. repeat constructor; simpl.
    + intros [H|[H|H]]; [discriminate H | discriminate H | exact H].
    + intros [H|H]; [discriminate H | exact H].
    + intros H. exact H.
  - etransitivity; [apply perm_swap|]. etransitivity; [apply perm_skip, perm_swap|].
    apply perm_swap.
Defined.

(** X6. In a dataset with one record per (species, breed) pair no breed
    list names a breed twice. *)
Theorem getBreedsBySpecies_NoDup sp data :
  unique_keys data -> NoDup (getBreedsBySpecies sp data).
Proof.
  unfold unique_keys. induction data as [|item data IH]; simpl.
  - intros _. constructor.
  - intros [Hnew Hnd]%NoDup_cons. rewrite getBreedsBySpecies_cons.
    destruct (decide (species item = sp)) as [Hs|Hs]; [|by apply IH].
    constructor; [|by apply IH].
    intros (r & Hr & Hrs & Hrb)%getBreedsBySpecies_elem_of.
    apply Hnew. replace (key item) with (key r).
    + apply list_elem_of_In, in_map, list_elem_of_In, Hr.
    + unfold key. by rewrite Hrs, Hrb, Hs.
Qed.

Lemma getBreedsBySpecies_NoDup_witness :
  NoDup (getBreedsBySpecies "Dog" [labrador; siamese; poodle]).
Proof.
  apply (getBreedsBySpecies_NoDup "Dog" [labrador; siamese; poodle]).
  apply NoDup_ListNoDup. repeat constructor; simpl.
  - intros [H|[H|H]]; [discriminate H | discriminate H | exact H].
  - intros [H|H]; [discriminate H | exact H].
  - intros H. exact H.
Defined.

(** ** Sign of the conversion *)

Lemma ltb_zero_leb x : (0 <? x) = true -> (0 <=? x) = true.
Proof. rewrite FloatAxioms.ltb_spec, FloatAxioms.leb_spec. apply SFltb_leb. Qed.

(** X8. For a non-negative age and a found record with strictly positive
    finite fields, the result is zero, a positive number or Infinity:
    it is never negative and never NaN; and age zero converts to zero. *)
Theorem calculateHumanAge_nonnegative sp br data entry petAge h :
  JS.Array_find (is_entry sp br) data = Some entry ->
  calculateHumanAge sp br petAge data = Some h ->
  positive_fields entry -> finite_fields entry -> (0 <=? petAge) = true ->
  (0 <=? h) = true
  /\ is_nan h = false
  /\ ((petAge =? 0) = true -> (h =? 0) = true).
Proof.
  intros Hfind. rewrite (calculateHumanAge_found _ _ _ _ _ Hfind).
  intros [= <-] Hpos Hfin Hage.
  destruct (NN_nonneg _ (humanAgeOf_NN entry petAge Hpos Hfin Hage)) as [H0 Hnan].
  split; [done|]. split; [done|].
  destruct Hpos as (Hy & Hv & _). destruct Hfin as (Fy & Fv & _).
  destruct (positive_finite_shape _ Hy Fy) as (my & ey & HY).
  destruct (positive_finite_shape _ Hv Fv) as (mv & ev & HV).
  intros Hzero. rewrite FloatAxioms.eqb_spec, Prim2SF_zero in Hzero.
  assert (exists s, Prim2SF petAge = S754_zero s) as [s HA].
  { destruct (Prim2SF petAge) as [s|[|]| |[|] m e]; try done. by exists s. }
  rewrite humanAgeOf_first_phase.
  - rewrite FloatAxioms.eqb_spec, FloatAxioms.mul_spec, HA, HV, Prim2SF_zero. done.
  - rewrite FloatAxioms.leb_spec, HA, HY. done.
Qed.

Lemma calculateHumanAge_nonnegative_witness :
  (0 <=? 33) = true /\ is_nan 33 = false /\ ((5 =? 0) = true -> (33 =? 0) = true).
Proof.
  apply (calculateHumanAge_nonnegative "Dog" "Labrador" [siamese; labrador] labrador 5 33).
  - reflexivity.
  - reflexivity.
  - repeat split.
  - repeat split.
  - reflexivity.
Defined.

(** ** Growing the dataset *)

(** X9. Records added behind the dataset do not change a result that is a
    number, and records added in front of it that do not carry the queried
    pair change no result. *)
Theorem calculateHumanAge_dataset_grows sp br petAge data more :
  (forall n, calculateHumanAge sp br petAge data = Some n ->
             calculateHumanAge sp br petAge (data ++ more) = Some n)
  /\ (Forall (fun r => ~ matches sp br r) more ->
      calculateHumanAge sp br petAge (more ++ data) = calculateHumanAge sp br petAge data)
  /\ (calculateHumanAge sp br petAge data = None ->
      calculateHumanAge sp br petAge (data ++ more) = calculateHumanAge sp br petAge more).
Proof.
  assert (forall l1 l2, Forall (fun r => is_entry sp br r = false) l1 ->
            JS.Array_find (is_entry sp br) (l1 ++ l2) = JS.Array_find (is_entry sp br) l2)
    as Hskip.
  { intros l1 l2 Hno. induction Hno as [|r l1 Hr _ IH]; simpl; [done|]. by rewrite Hr. }
  unfold calculateHumanAge. split; [|split].
  - intros n. destruct (JS.Array_find (is_entry sp br) data) as [r|] eqn:Hfind; [|done].
    apply Array_find_Some in Hfind as (before & after & -> & Hm & Hb).
    rewrite <- app_assoc. simpl. by rewrite (Array_find_first _ _ _ _ Hm Hb).
  - intros Hno%no_entry_Forall. by rewrite Hskip.
  - destruct (JS.Array_find (is_entry sp br) data) as [r|] eqn:Hfind; [done|].
    intros _. apply Array_find_None in Hfind. by rewrite Hskip.
Qed.

Lemma calculateHumanAge_dataset_grows_witness :
  calculateHumanAge "Dog" "Labrador" 3 ([labrador] ++ [labrador_again; siamese])
  = Some (2 * 10.5 + (3 - 2) * 4)
  /\ calculateHumanAge "Dog" "Labrador" 3 ([siamese; poodle] ++ [labrador])
     = calculateHumanAge "Dog" "Labrador" 3 [labrador].
Proof.
  split.
  - apply (calculateHumanAge_dataset_grows "Dog" "Labrador" 3 [labrador]
             [labrador_again; siamese]).
    reflexivity.
  - apply (calculateHumanAge_dataset_grows "Dog" "Labrador" 3 [labrador] [siamese; poodle]).
    repeat constructor; intros [H1 H2]; discriminate.
Defined.

(** ** The form component *)

Lemma calculateHumanAge_number_iff_listed sp br petAge data :
  (exists n, calculateHumanAge sp br petAge data = Some n)
  <-> br ∈ getBreedsBySpecies sp data.
Proof.
  rewrite getBreedsBySpecies_elem_of. unfold calculateHumanAge.
  destruct (JS.Array_find (is_entry sp br) data) as [entry|] eqn:Hfind.
  - split; [|by eexists]. intros _.
    apply Array_find_Some in Hfind as (before & after & -> & Hm%is_entry_true & _).
    exists entry. split; [|exact Hm].
    apply elem_of_app. right. apply elem_of_cons. by left.
  - split; [by intros [n ?]|]. intros (r & Hr & Hm).
    apply Array_find_None in Hfind. rewrite Forall_forall in Hfind.
    specialize (Hfind r Hr). apply is_entry_false in Hfind. exfalso. by apply Hfind.
Qed.

Lemma truthy_string_true s : PetAgeCalculator.truthy_string s = true <-> s <> ""%string.
Proof. destruct s; simpl; split; congruence. Qed.

Lemma formSchema_true v :
  PetAgeCalculator.formSchema v = true
  <-> Form.species v <> ""%string /\ Form.breed v <> ""%string
      /\ (0 <? Form.petAge v) = true.
Proof.
  unfold PetAgeCalculator.formSchema.
  rewrite !andb_true_iff, !Nat.leb_le.
  assert (forall s, (1 <= String.length s)%nat <-> s <> ""%string) as Hlen.
  { intros [|c s]; simpl; split; try congruence; lia. }
  rewrite !Hlen. tauto.
Qed.

(** A number greater than zero is truthy. *)
Lemma positive_truthy n :
  (0 <? n) = true -> PetAgeCalculator.truthy_number n = true.
Proof.
  unfold PetAgeCalculator.truthy_number, is_nan.
  rewrite FloatAxioms.ltb_spec, !FloatAxioms.eqb_spec, Prim2SF_zero.
  unfold SFltb, SFeqb.
  destruct (Prim2SF n) as [s|[|]| |[|] m e]; simpl; try done.
  by rewrite Z.compare_refl, Pos.compare_cont_refl.
Qed.

Lemma formSchema_truthy v :
  PetAgeCalculator.formSchema v = true ->
  PetAgeCalculator.truthy_string (Form.species v) = true
  /\ PetAgeCalculator.truthy_string (Form.breed v) = true
  /\ PetAgeCalculator.truthy_number (Form.petAge v) = true.
Proof.
  intros (Hs & Hb & Hage)%formSchema_true.
  repeat split; [by apply truthy_string_true..|]. by apply positive_truthy.
Qed.

Lemma humanAgeEffect_humanAge data isValid st :
  PetAgeCalculator.humanAge (PetAgeCalculator.humanAgeEffect data isValid st)
  = let v := PetAgeCalculator.values st in
    if isValid
       && PetAgeCalculator.truthy_string (Form.species v)
       && PetAgeCalculator.truthy_string (Form.breed v)
       && PetAgeCalculator.truthy_number (Form.petAge v)
    then calculateHumanAge (Form.species v) (Form.breed v) (Form.petAge v) data
    else None.
Proof.
  unfold PetAgeCalculator.humanAgeEffect. cbv zeta.
  by destruct (_ && _ && _ && _).
Qed.

(** X10. When [formState.isValid] is the verdict of [formSchema] on the
    form values, the three truthiness tests of the second effect reject
    nothing more: the effect stores the conversion of the form values for
    a valid form and [null] for an invalid one, and the result panel shows
    a number exactly when the form is valid and the breed is one that
    [getBreedsBySpecies] lists for the species. *)
Theorem humanAgeEffect_of_valid_form data st :
  let v := PetAgeCalculator.values st in
  let isValid := PetAgeCalculator.formSchema v in
  let st' := PetAgeCalculator.humanAgeEffect data isValid st in
  PetAgeCalculator.humanAge st'
  = (if isValid
     then calculateHumanAge (Form.species v) (Form.breed v) (Form.petAge v) data
     else None)
  /\ (PetAgeCalculator.showsResult isValid st' = true
      <-> isValid = true /\ Form.breed v ∈ getBreedsBySpecies (Form.species v) data).
Proof.
  intros v isValid st'.
  assert (PetAgeCalculator.humanAge st'
          = if isValid
            then calculateHumanAge (Form.species v) (Form.breed v) (Form.petAge v) data
            else None) as Hage.
  { subst st'. rewrite humanAgeEffect_humanAge. cbv zeta. fold v. fold isValid.
    destruct isValid eqn:Hvalid; [|done].
    by destruct (formSchema_truthy v Hvalid) as (-> & -> & ->). }
  split; [exact Hage|].
  unfold PetAgeCalculator.showsResult. rewrite Hage.
  destruct isValid; [|split; [done|by intros [? _]]].
  rewrite <- (calculateHumanAge_number_iff_listed _ _ (Form.petAge v)).
  destruct (calculateHumanAge (Form.species v) (Form.breed v) (Form.petAge v) data) as [n|].
  - split; [|done]. intros _. split; [done|by exists n].
  - split; [done|]. by intros [_ [n ?]].
Qed.

(** X11. Choosing a species and letting both effects run leaves no
    result: the breed selection is reset, so the human age is [null] and
    the result panel shows no number, whatever the validity flag says.
    The available breeds are those of the chosen species, and none for an
    empty choice. *)
Theorem species_change_clears_result data isValid s st :
  let st' := PetAgeCalculator.humanAgeEffect data isValid
               (PetAgeCalculator.breedsEffect data (PetAgeCalculator.selectSpecies s st)) in
  PetAgeCalculator.humanAge st' = None
  /\ PetAgeCalculator.showsResult isValid st' = false
  /\ PetAgeCalculator.availableBreeds st'
     = (if PetAgeCalculator.truthy_string s then getBreedsBySpecies s data else [])
  /\ (s <> ""%string -> Form.breed (PetAgeCalculator.values st') = ""%string).
Proof.
  intros st'.
  assert (PetAgeCalculator.humanAge st' = None) as Hage.
  { subst st'. rewrite humanAgeEffect_humanAge. cbv zeta.
    unfold PetAgeCalculator.breedsEffect, PetAgeCalculator.selectSpecies. simpl.
    destruct (PetAgeCalculator.truthy_string s) eqn:Hs; simpl.
    - by rewrite andb_false_r.
    - by rewrite Hs, andb_false_r. }
  split; [exact Hage|]. split; [|split].
  - unfold PetAgeCalculator.showsResult. rewrite Hage. apply andb_false_r.
  - subst st'. unfold PetAgeCalculator.humanAgeEffect, PetAgeCalculator.breedsEffect,
      PetAgeCalculator.selectSpecies. simpl.
    destruct (PetAgeCalculator.truthy_string s); simpl; by destruct (_ && _ && _ && _).
  - intros Hs%truthy_string_true. subst st'.
    unfold PetAgeCalculator.humanAgeEffect, PetAgeCalculator.breedsEffect,
      PetAgeCalculator.selectSpecies. simpl. rewrite Hs. simpl.
    by destruct (_ && _).
Qed.

Lemma species_change_clears_result_witness :
  Form.breed
    (PetAgeCalculator.values
       (PetAgeCalculator.humanAgeEffect [labrador; siamese] true
          (PetAgeCalculator.breedsEffect [labrador; siamese]
             (PetAgeCalculator.selectSpecies "Cat"
                (PetAgeCalculator.mkState (Form.mk "Dog" "Labrador" 3) ["Labrador"%string]
                   (Some 25))))))
  = ""%string.
Proof.
  apply (species_change_clears_result [labrador; siamese] true "Cat"
           (PetAgeCalculator.mkState (Form.mk "Dog" "Labrador" 3) ["Labrador"%string]
              (Some 25))).
  discriminate.
Defined.

(** X12. Every choice the two selects offer converts: for a listed,
    non-empty species the first effect makes at least one breed available,
    and for each available breed and a form that is valid with it the
    second effect stores the conversion of that choice, which is a number
    and not [null], and the result panel shows it; when all records of the
    dataset have strictly positive finite fields, that number is not
    negative and not NaN. *)
Theorem offered_choices_convert data st s b :
  s ∈ getUniqueSpecies data -> s <> ""%string ->
  let st1 := PetAgeCalculator.breedsEffect data (PetAgeCalculator.selectSpecies s st) in
  let st2 := PetAgeCalculator.selectBreed b st1 in
  let st3 := PetAgeCalculator.humanAgeEffect data true st2 in
  PetAgeCalculator.availableBreeds st1 <> []
  /\ (b ∈ PetAgeCalculator.availableBreeds st1 ->
      PetAgeCalculator.formSchema (PetAgeCalculator.values st2) = true ->
      exists n,
        PetAgeCalculator.humanAge st3 = Some n
        /\ calculateHumanAge s b (Form.petAge (PetAgeCalculator.values st)) data = Some n
        /\ PetAgeCalculator.showsResult true st3 = true
        /\ (Forall positive_fields data -> Forall finite_fields data ->
            (0 <=? n) = true /\ is_nan n = false)).
Proof.
  intros Hlisted Hs%truthy_string_true st1 st2 st3.
  assert (PetAgeCalculator.availableBreeds st1 = getBreedsBySpecies s data) as Hbreeds.
  { subst st1. unfold PetAgeCalculator.breedsEffect, PetAgeCalculator.selectSpecies.
    simpl. by rewrite Hs. }
  assert (PetAgeCalculator.values st2
          = Form.mk s b (Form.petAge (PetAgeCalculator.values st))) as Hvalues.
  { subst st2 st1. unfold PetAgeCalculator.selectBreed, PetAgeCalculator.breedsEffect,
      PetAgeCalculator.selectSpecies. simpl. by rewrite Hs. }
  split.
  - rewrite Hbreeds. intros Hnil.
    apply getUniqueSpecies_elem_of in Hlisted as (r & Hr & Hrs).
    apply getBreedsBySpecies_nil_iff in Hnil. rewrite Forall_forall in Hnil.
    by apply (Hnil r Hr).
  - rewrite Hbreeds. intros Hb Hvalid.
    destruct (formSchema_truthy _ Hvalid) as (Ht1 & Ht2 & Ht3).
    apply formSchema_true in Hvalid as (_ & _ & Hage).
    rewrite Hvalues in Hage. cbn [Form.petAge] in Hage.
    assert (PetAgeCalculator.humanAge st3
            = calculateHumanAge s b (Form.petAge (PetAgeCalculator.values st)) data) as Hst3.
    { subst st3. rewrite humanAgeEffect_humanAge. cbv zeta.
      rewrite Ht1, Ht2, Ht3, Hvalues. done. }
    unfold PetAgeCalculator.showsResult. rewrite Hst3. unfold calculateHumanAge.
    destruct (JS.Array_find (is_entry s b) data) as [entry|] eqn:Hfind.
    + eexists. split; [done|]. split; [done|]. split; [done|].
      intros Hall Hallfin. rewrite Forall_forall in Hall. rewrite Forall_forall in Hallfin.
      apply Array_find_Some in Hfind as (before & after & -> & _).
      assert (entry ∈ before ++ entry :: after) as Hentry.
      { apply elem_of_app. right. apply elem_of_cons. by left. }
      apply NN_nonneg, humanAgeOf_NN; [by apply Hall|by apply Hallfin|].
      by apply ltb_zero_leb.
    + exfalso. apply Array_find_None in Hfind. rewrite Forall_forall in Hfind.
      apply getBreedsBySpecies_elem_of in Hb as (r & Hr & Hm).
      specialize (Hfind r Hr). apply is_entry_false in Hfind. by apply Hfind.
Qed.

Lemma offered_choices_convert_witness :
  exists n,
    PetAgeCalculator.humanAge
      (PetAgeCalculator.humanAgeEffect [labrador; siamese] true
         (PetAgeCalculator.selectBreed "Siamese"
            (PetAgeCalculator.breedsEffect [labrador; siamese]
               (PetAgeCalculator.selectSpecies "Cat"
                  (PetAgeCalculator.mkState (Form.mk "" "" 3) [] None)))))
    = Some n
    /\ calculateHumanAge "Cat" "Siamese" 3 [labrador; siamese] = Some n
    /\ PetAgeCalculator.showsResult true
         (PetAgeCalculator.humanAgeEffect [labrador; siamese] true
            (PetAgeCalculator.selectBreed "Siamese"
               (PetAgeCalculator.breedsEffect [labrador; siamese]
                  (PetAgeCalculator.selectSpecies "Cat"
                     (PetAgeCalculator.mkState (Form.mk "" "" 3) [] None)))))
       = true
    /\ (Forall positive_fields [labrador; siamese] ->
        Forall finite_fields [labrador; siamese] ->
        (0 <=? n) = true /\ is_nan n = false).
Proof.
  refine (proj2 (offered_choices_convert [labrador; siamese]
                   (PetAgeCalculator.mkState (Form.mk "" "" 3) [] None)
                   "Cat" "Siamese" _ _) _ _).
  - vm_compute. apply list_elem_of_In. simpl. right. left. reflexivity.
  - discriminate.
  - vm_compute. apply list_elem_of_In. simpl. left. reflexivity.
  - reflexivity.
Defined.
